(** * driveHalo-py: root_logger.py

    A shallow embedding of the logging facility of the driveHalo vehicle
    platform (src/driveHalo-py-jetson/root_logger.py) and the properties
    of its specification.

    Conventions of the embedding:
    - Python [int] is [Z], Python [float] is the IEEE binary64 [float] of
      [PrimFloat], Python [str] is [string].
    - a [dict] is a [gmap]; the one dict whose iteration order is
      observable ([special_loggers], iterated by the constructor) is an
      association list in insertion order.
    - [logging.Logger] objects are mutable and shared, so they live in a
      heap ([logging.objects]) and are passed around by address; a method
      of the manager takes and returns the pair of the manager object and
      the library state.
    - the clock ([time.time], [time.strftime]) is an input of the
      operation that reads it.
    - an exception that leaves a function is a [None] result, or a named
      outcome where the property speaks about it.
    - a logger emits a record when [Logger.log] (or [Logger.info]) is
      called on it and it is enabled for the level; what the handlers then
      do with the record, the file system and the drawing backend are
      outside the model. *)

From Stdlib Require Import ZArith String Ascii List Floats Lia.
From Stdlib Require Import DecimalString DecimalZ.
From stdpp Require Import gmap strings list.

Local Open Scope string_scope.
Local Open Scope list_scope.
Local Open Scope Z_scope.

(** ** Part I: the program *)

(** *** class LogWindow *)

Module LogWindow.

(** One entry of [log_lines]: [(timestamp, category, message)]. *)
Abbreviation record := (string * string * string)%type.

(** A BGR colour triple. *)
Abbreviation color := (Z * Z * Z)%type.

(** [collections.deque(maxlen=n).append(x)]: the element is added on the
    right and, when the deque then holds more than [maxlen] elements,
    the leftmost one is dropped. *)
Definition deque_append {A : Type} (maxlen : Z) (x : A) (d : list A) : list A :=
  let d' := d ++ [x] in
  if Z.of_nat (length d') >? maxlen then tail d' else d'.

Record t : Type := mk {
  window_name : string;
  window_size : Z * Z;
  max_lines : Z;
  log_lines : list record;          (* deque(maxlen=max_lines) *)
  font_size : float;
  line_height : Z;
  category_colors : gmap string color
}.

Definition set_log_lines (ls : list record) (w : t) : t :=
  mk (window_name w) (window_size w) (max_lines w) ls
     (font_size w) (line_height w) (category_colors w).

(** [add_log]: [timestamp] is what [time.strftime("%H:%M:%S")] returns
    at the call. *)
Definition add_log (timestamp category message : string) (w : t) : t :=
  set_log_lines
    (deque_append (max_lines w) (timestamp, category, message) (log_lines w)) w.

(** What the constructor prints after the [try] block. *)
Inductive creation : Type :=
| WindowCreated
| WindowError.

Definition default_colors : gmap string color :=
  <["performance" := (128, 0, 255)]>
  (<["control" := (0, 165, 255)]>
  (<["sync" := (0, 255, 255)]>
  (<["sensors" := (0, 255, 0)]>
  (<["system" := (255, 255, 255)]> ∅)))).

(** [LogWindow.__init__].  [deque(maxlen=...)] raises [ValueError] for a
    negative [maxlen], before anything else is set up.  [window_ok]
    tells whether the calls to the windowing backend inside the [try]
    succeeded; the four [ts] are the clock readings of the four
    [add_log] calls. *)
Definition __init__ (window_name : string) (window_size : Z * Z) (max_lines : Z)
    (window_ok : bool) (ts1 ts2 ts3 ts4 : string) : option (creation * t) :=
  if max_lines <? 0 then None
  else
    let w := mk window_name window_size max_lines [] 0.5%float 20 default_colors in
    let report := if window_ok then WindowCreated else WindowError in
    let w := add_log ts1 "system" "Log window initialized" w in
    let w := add_log ts2 "system" "Press keys 1-5 to toggle diagnostic categories" w in
    let w := add_log ts3 "system" "Press 'f' to force a full diagnostic log" w in
    let w := add_log ts4 "system" "window can be resized by dragging" w in
    Some (report, w).

(** [str.upper] for ASCII text: the letters a to z are mapped to A to Z
    and every other character is kept.  (Python also maps the lower-case
    letters beyond ASCII; the categories this program logs under are
    ASCII words.) *)
Definition upper_ascii (c : ascii) : ascii :=
  let n := nat_of_ascii c in
  if ((97 <=? n) && (n <=? 122))%nat then ascii_of_nat (n - 32) else c.

Fixpoint upper (s : string) : string :=
  match s with
  | EmptyString => EmptyString
  | String c s' => String (upper_ascii c) (upper s')
  end.

(** One [cv2.putText(canvas, text, org, font, font_size, color, 1)]. *)
Record put_text : Type := PutText {
  text : string;
  org : Z * Z;
  text_color : color
}.

(** The three [putText] calls of one iteration of the drawing loop. *)
Definition draw_line (w : t) (y_pos : Z) (r : record) : list put_text :=
  let '(timestamp, category, message) := r in
  let color := default (200, 200, 200) (category_colors w !! category) in
  [ PutText timestamp (10, y_pos) (150, 150, 150);
    PutText ("[" +:+ upper category +:+ "]") (100, y_pos) color;
    PutText message (240, y_pos) (220, 220, 220) ].

(** The body of [for i in range(start_idx, len(self.log_lines))], run
    over the records from [start_idx] on: draw, advance [y_pos], and
    [break] once [y_pos >= window_size[1] - 10]. *)
Fixpoint draw_loop (w : t) (y_pos : Z) (lines : list record) : list put_text :=
  match lines with
  | [] => []
  | r :: rest =>
      draw_line w y_pos r ++
      (let y_pos := y_pos + line_height w in
       if y_pos >=? snd (window_size w) - 10 then [] else draw_loop w y_pos rest)
  end.

(** What one call of [render] does to the screen: the text drawn on the
    fresh canvas (after the background fill), in drawing order, and
    whether [cv2.imshow] was reached. *)
Record frame : Type := Frame {
  drawn : list put_text;
  presented : bool
}.

(** [render].  [np.zeros] raises [ValueError] for a negative dimension,
    which the [except] clause swallows; the drawing backend itself is
    taken to succeed. *)
Definition render (w : t) : frame :=
  let '(width, height) := window_size w in
  if (height <? 0) || (width <? 0) then Frame [] false
  else
    let len := Z.of_nat (length (log_lines w)) in
    let visible_lines := Z.min (height / line_height w) len in
    let start_idx := Z.max 0 (len - visible_lines) in
    Frame (draw_loop w 20 (drop (Z.to_nat start_idx) (log_lines w))) true.

Definition process_key (key : Z) (w : t) : t := w.

Definition clear (timestamp : string) (w : t) : t :=
  add_log timestamp "system" "Log cleared" (set_log_lines [] w).

(** The operations a client can apply to a window, and their effect on
    it. *)
Inductive op : Type :=
| AddLog (timestamp category message : string)
| Render
| ProcessKey (key : Z)
| Clear (timestamp : string).

Definition step (w : t) (o : op) : t :=
  match o with
  | AddLog ts c m => add_log ts c m w
  | Render => w
  | ProcessKey k => process_key k w
  | Clear ts => clear ts w
  end.

Definition run (ops : list op) (w : t) : t := foldl step w ops.

(** [add_log] once per record, in order. *)
Definition add_logs (rs : list record) (w : t) : t :=
  foldl (fun w '(ts, c, m) => add_log ts c m w) w rs.

End LogWindow.

(** Python's [str(n)] for an [int]. *)
Definition str (n : Z) : string := NilZero.string_of_int (Z.to_int n).

(** *** The [logging] library, as far as the manager uses it

    The standard library is not part of the repository; these definitions
    follow CPython's [logging/__init__.py]. *)

Module logging.

Definition NOTSET : Z := 0.
Definition DEBUG : Z := 10.
Definition INFO : Z := 20.
Definition WARNING : Z := 30.
Definition ERROR : Z := 40.
Definition CRITICAL : Z := 50.

(** [logging.Formatter(fmt, datefmt)]. *)
Record Formatter : Type := mkFormatter {
  fmt : string;
  datefmt : option string
}.

(** The two kinds of handler the manager creates, with the formatter set
    by [setFormatter] right after construction. *)
Inductive Handler : Type :=
| StreamHandler (formatter : Formatter)                     (* on sys.stdout *)
| RotatingFileHandler (filename : string) (maxBytes backupCount : Z)
                      (formatter : Formatter).

Record Logger : Type := mkLogger {
  name : string;
  level : Z;
  propagate : bool;
  handlers : list Handler
}.

(** The state of the library in one process: the [Logger] objects by
    address, with the root logger at address 0; the table of named loggers
    ([Logger.manager.loggerDict]); and the records the loggers have made
    so far, oldest first, each as (address of the logger, level, message).
    A call of [Logger.log] makes a record when the logger is enabled for
    the level ([isEnabledFor]); what the handlers then do with the record
    (formatting, the console, the files and their rotation) is not part of
    this model. *)
Record state : Type := mkState {
  objects : list Logger;
  loggerDict : gmap string nat;
  records : list (nat * Z * string)
}.

Definition root : nat := 0%nat.

(** A process that has imported [logging] and done nothing else. *)
Definition fresh : state :=
  mkState [mkLogger "root" WARNING true []] ∅ [].

Definition update (f : Logger → Logger) (logger : nat) (p : state) : state :=
  mkState (alter f logger (objects p)) (loggerDict p) (records p).

(** [logging.getLogger(name)]: the root logger for an empty name or the
    root's own name, else the logger of that name, created on first
    request with level [NOTSET], [propagate = True] and no handler. *)
Definition getLogger (name : string) (p : state) : nat * state :=
  if bool_decide (name = EmptyString) || bool_decide (name = "root") then (root, p)
  else
    match loggerDict p !! name with
    | Some logger => (logger, p)
    | None =>
        let logger := length (objects p) in
        (logger,
         mkState (objects p ++ [mkLogger name NOTSET true []])
                 (<[name := logger]> (loggerDict p)) (records p))
    end.

Definition setLevel (level : Z) : nat → state → state :=
  update (λ l, mkLogger (name l) level (propagate l) (handlers l)).

Definition set_propagate (b : bool) : nat → state → state :=
  update (λ l, mkLogger (name l) (level l) b (handlers l)).

Definition addHandler (h : Handler) : nat → state → state :=
  update (λ l, mkLogger (name l) (level l) (propagate l) (handlers l ++ [h])).

(** [for handler in logger.handlers[:]: logger.removeHandler(handler)]. *)
Definition removeHandlers : nat → state → state :=
  update (λ l, mkLogger (name l) (level l) (propagate l) []).

(** The names of the ancestors of a logger called [name], nearest first:
    the proper prefixes of the dotted name that end just before a dot
    ("a.b" and "a" for "a.b.c"). *)
Fixpoint dotted_prefixes (prefix name : string) : list string :=
  match name with
  | EmptyString => []
  | String c name' =>
      (if Ascii.eqb c "." && negb (String.eqb prefix EmptyString) then [prefix] else [])
      ++ dotted_prefixes (prefix +:+ String c EmptyString) name'
  end.

Definition ancestors (name : string) : list string :=
  rev (dotted_prefixes EmptyString name).

(** [Logger.getEffectiveLevel]: the first level other than [NOTSET] on the
    way from the logger through its parents to the root logger, and
    [NOTSET] when there is none.  The root logger has no parent; the
    parents of another logger are the loggers that exist under the names
    of its ancestors, and then the root logger.  (This is the hierarchy of
    dotted names as the library documents it, for names whose components
    are not empty.) *)
Definition getEffectiveLevel (logger : nat) (p : state) : Z :=
  match objects p !! logger with
  | None => NOTSET
  | Some lg =>
      let parents :=
        if bool_decide (logger = root) then []
        else omap (λ n, loggerDict p !! n ≫= λ a, objects p !! a) (ancestors (name lg))
             ++ option_list (objects p !! root) in
      default NOTSET (head (filter (λ l, l ≠ NOTSET) (level <$> lg :: parents)))
  end.

(** [Logger.isEnabledFor(level)].  No code of this program sets
    [Logger.disabled] or calls [logging.disable], so the logger is not
    disabled and the threshold [manager.disable] is 0, its initial value:
    a level that is not positive is never enabled. *)
Definition isEnabledFor (logger : nat) (level : Z) (p : state) : bool :=
  bool_decide (0 < level) && bool_decide (getEffectiveLevel logger p ≤ level).

(** [logger.log(level, message)], and [logger.info(message)] at [INFO]:
    the record is made when the logger is enabled for the level, and
    nothing happens otherwise. *)
Definition log (logger : nat) (level : Z) (message : string) (p : state) : state :=
  if isEnabledFor logger level p
  then mkState (objects p) (loggerDict p) (records p ++ [(logger, level, message)])
  else p.

End logging.

(** [os.path.join(a, b)] on a POSIX system. *)
Definition os_path_join (a b : string) : string :=
  if String.prefix "/" b then b
  else if bool_decide (a = EmptyString)
          || bool_decide (String.get (String.length a - 1) a = Some "/"%char)
  then a +:+ b
  else a +:+ "/" +:+ b.

(** *** class LoggingManager *)

Module LoggingManager.

Import logging.

Record t : Type := mk {
  log_dir : string;
  default_level : Z;
  enable_console : bool;
  enable_file : bool;
  max_file_size_mb : Z;
  backup_count : Z;
  loggers : gmap string nat;
  special_loggers : list (string * option nat);   (* in insertion order *)
  standard_format : Formatter;
  detailed_format : Formatter;
  rate_limiters : gmap string float
}.

(** A world is the manager object together with the state of the logging
    library it works on. *)
Abbreviation world := (t * state)%type.

Definition set_loggers (m : gmap string nat) (self : t) : t :=
  mk (log_dir self) (default_level self) (enable_console self) (enable_file self)
     (max_file_size_mb self) (backup_count self) m (special_loggers self)
     (standard_format self) (detailed_format self) (rate_limiters self).

Definition set_special_loggers (s : list (string * option nat)) (self : t) : t :=
  mk (log_dir self) (default_level self) (enable_console self) (enable_file self)
     (max_file_size_mb self) (backup_count self) (loggers self) s
     (standard_format self) (detailed_format self) (rate_limiters self).

Definition set_rate_limiters (r : gmap string float) (self : t) : t :=
  mk (log_dir self) (default_level self) (enable_console self) (enable_file self)
     (max_file_size_mb self) (backup_count self) (loggers self) (special_loggers self)
     (standard_format self) (detailed_format self) r.

(** [d[key]] and [key in d] for the dict [special_loggers]. *)
Fixpoint special_get (key : string) (d : list (string * option nat)) : option (option nat) :=
  match d with
  | [] => None
  | (k, v) :: d' => if bool_decide (k = key) then Some v else special_get key d'
  end.

Definition special_in (key : string) (d : list (string * option nat)) : bool :=
  bool_decide (is_Some (special_get key d)).

(** [d[key] = v] for a key the dict already has (the only use made of it). *)
Fixpoint special_set (key : string) (v : option nat) (d : list (string * option nat))
    : list (string * option nat) :=
  match d with
  | [] => [(key, v)]
  | (k, v') :: d' =>
      if bool_decide (k = key) then (k, v) :: d' else (k, v') :: special_set key v d'
  end.

Definition get_logger (name : string) (w : world) : nat * world :=
  let '(self, p) := w in
  match loggers self !! name with
  | Some logger => (logger, w)
  | None =>
      let '(logger, p) := getLogger name p in
      let p := if special_in name (special_loggers self)
               then set_propagate false logger p else p in
      (logger, (set_loggers (<[name := logger]> (loggers self)) self, p))
  end.

Definition _configure_root_logger (w : world) : world :=
  let '(self, p) := w in
  let root_logger := root in
  let p := removeHandlers root_logger p in
  let p := setLevel (default_level self) root_logger p in
  let p := if enable_console self
           then addHandler (StreamHandler (standard_format self)) root_logger p
           else p in
  let p := if enable_file self
           then addHandler
                  (RotatingFileHandler (os_path_join (log_dir self) "main.log")
                     (max_file_size_mb self * 1024 * 1024) (backup_count self)
                     (detailed_format self))
                  root_logger p
           else p in
  (set_loggers (<["root" := root_logger]> (loggers self)) self, p).

(** One iteration of the loop of [_initialize_special_loggers]. *)
Definition initialize_special_logger (w : world) (category : string) : world :=
  let '(logger, (self, p)) := get_logger category w in
  let p := if enable_file self
           then addHandler
                  (RotatingFileHandler (os_path_join (log_dir self) (category +:+ ".log"))
                     (max_file_size_mb self * 1024 * 1024) (backup_count self)
                     (detailed_format self))
                  logger p
           else p in
  (set_special_loggers (special_set category (Some logger) (special_loggers self)) self, p).

Definition _initialize_special_loggers (w : world) : world :=
  foldl initialize_special_logger w (fst <$> special_loggers w.1).

(** [LoggingManager.__init__].  The file system is outside the model:
    [os.makedirs] and the opening of the log files are taken to succeed. *)
Definition __init__ (log_dir : string) (default_level : Z)
    (enable_console enable_file : bool) (max_file_size_mb backup_count : Z)
    (p : state) : world :=
  let self :=
    mk log_dir default_level enable_console enable_file max_file_size_mb backup_count
       ∅
       [("diagnostic", None); ("sensor", None); ("sync", None);
        ("control", None); ("performance", None)]
       (mkFormatter "%(asctime)s - %(levelname)s - %(name)s - %(message)s" None)
       (mkFormatter
          "%(asctime)s.%(msecs)03d - %(levelname)s - %(name)s [%(threadName)s] - %(message)s"
          (Some "%Y-%m-%d %H:%M:%S"))
       ∅ in
  _initialize_special_loggers (_configure_root_logger (self, p)).

(** [set_level]: the loop over [self.loggers.values()] visits every
    registered logger once; the order does not matter for the result. *)
Definition set_level (level : Z) (names : option (list string)) (w : world) : world :=
  let '(self, p) := w in
  match names with
  | None =>
      (self, foldl (λ p logger, setLevel level logger p) p
               (snd <$> map_to_list (loggers self)))
  | Some names =>
      (self, foldl (λ p name,
                      match loggers self !! name with
                      | Some logger => setLevel level logger p
                      | None => p
                      end) p names)
  end.

(** [toggle_special_logger]; [None] is the [KeyError] of
    [self.loggers['root']] in a manager that has no such entry. *)
Definition toggle_special_logger (category : string) (enable : bool) (w : world)
    : option world :=
  let '(self, p) := w in
  match special_get category (special_loggers self) with
  | Some (Some logger) =>
      let level := if enable then DEBUG else CRITICAL in
      let p := setLevel level logger p in
      match loggers self !! "root" with
      | Some root_logger =>
          Some (self,
                log root_logger INFO
                  ((if enable then "Enabled" else "Disabled") +:+ " " +:+ category
                   +:+ " logging") p)
      | None => None
      end
  | _ => Some w
  end.

(** How a call of [rate_limited_log] ends. *)
Inductive outcome : Type :=
| Emitted              (* [logger.log] was called *)
| Suppressed           (* returned without logging *)
| ZeroDivisionError.   (* [1.0 / limit_per_second] raised *)

(** [rate_limited_log]; [current_time] is what [time.time()] returns.
    The result is [None] when [logger] is not the address of an object. *)
Definition rate_limited_log (logger : nat) (level : Z) (message : string)
    (limit_per_second : float) (current_time : float) (w : world)
    : option (outcome * world) :=
  let '(self, p) := w in
  match objects p !! logger with
  | None => None
  | Some lg =>
      let key := name lg +:+ ":" +:+ str level in
      match rate_limiters self !! key with
      | None =>
          let self := set_rate_limiters (<[key := current_time]> (rate_limiters self)) self in
          Some (Emitted, (self, log logger level message p))
      | Some last_log_time =>
          let time_diff := PrimFloat.sub current_time last_log_time in
          if PrimFloat.eqb limit_per_second 0 then Some (ZeroDivisionError, w)
          else if PrimFloat.leb (PrimFloat.div 1 limit_per_second) time_diff
          then
            let p := log logger level message p in
            Some (Emitted,
                  (set_rate_limiters (<[key := current_time]> (rate_limiters self)) self, p))
          else Some (Suppressed, w)
      end
  end.

(** The accessors of the special loggers: [self.special_loggers[<name>]],
    where [None] is the [KeyError] and [Some None] the Python [None] the
    constructor puts in before the logger is made. *)
Definition get_diagnostic_logger (self : t) : option (option nat) :=
  special_get "diagnostic" (special_loggers self).

Definition get_sensor_logger (self : t) : option (option nat) :=
  special_get "sensor" (special_loggers self).

Definition get_sync_logger (self : t) : option (option nat) :=
  special_get "sync" (special_loggers self).

Definition get_control_logger (self : t) : option (option nat) :=
  special_get "control" (special_loggers self).

Definition get_performance_logger (self : t) : option (option nat) :=
  special_get "performance" (special_loggers self).

End LoggingManager.

(** *** The module-level singleton *)

(** The global [_logging_manager], together with the library state. *)
Record process : Type := mkProcess {
  _logging_manager : option LoggingManager.t;
  lib : logging.state
}.

Definition initialize_logging (log_dir : string) (default_level : Z)
    (enable_console enable_file : bool) (pr : process)
    : LoggingManager.t * process :=
  match _logging_manager pr with
  | None =>
      let '(self, p) :=
        LoggingManager.__init__ log_dir default_level enable_console enable_file 10 5
          (lib pr) in
      (self, mkProcess (Some self) p)
  | Some self => (self, pr)
  end.

(** [get_logging_manager]: the global manager, made with the defaults of
    [initialize_logging] when there is none yet. *)
Definition get_logging_manager (pr : process) : LoggingManager.t * process :=
  match _logging_manager pr with
  | None => initialize_logging "logs" logging.INFO true true pr
  | Some self => (self, pr)
  end.

(** The module-level [get_logger].  The manager is one shared object: what
    its method [get_logger] adds to [self.loggers] is seen through the
    global afterwards. *)
Definition get_logger (name : string) (pr : process) : nat * process :=
  let '(self, pr) :=
    match _logging_manager pr with
    | None => initialize_logging "logs" logging.INFO true true pr
    | Some self => (self, pr)
    end in
  let '(logger, (self, p)) := LoggingManager.get_logger name (self, lib pr) in
  (logger, mkProcess (Some self) p).

(** The module-level accessors of the special loggers. *)
Definition get_diagnostic_logger (pr : process) : option (option nat) * process :=
  let '(self, pr) := get_logging_manager pr in
  (LoggingManager.get_diagnostic_logger self, pr).

Definition get_sensor_logger (pr : process) : option (option nat) * process :=
  let '(self, pr) := get_logging_manager pr in
  (LoggingManager.get_sensor_logger self, pr).

Definition get_sync_logger (pr : process) : option (option nat) * process :=
  let '(self, pr) := get_logging_manager pr in
  (LoggingManager.get_sync_logger self, pr).

Definition get_control_logger (pr : process) : option (option nat) * process :=
  let '(self, pr) := get_logging_manager pr in
  (LoggingManager.get_control_logger self, pr).

Definition get_performance_logger (pr : process) : option (option nat) * process :=
  let '(self, pr) := get_logging_manager pr in
  (LoggingManager.get_performance_logger self, pr).

(** *** Vocabulary of the overlay's specification *)

(** The [n] most recent elements of a history. *)
Definition most_recent {A : Type} (n : nat) (l : list A) : list A :=
  drop (length l - n) l.

(** The state of a deque that respects its [maxlen]. *)
Definition buffer_ok (w : LogWindow.t) : Prop :=
  0 ≤ LogWindow.max_lines w ∧
  Z.of_nat (length (LogWindow.log_lines w)) ≤ LogWindow.max_lines w.

(** The drawing loop without its [break]: every record gets its row. *)
Fixpoint draw_rows (w : LogWindow.t) (y_pos : Z) (lines : list LogWindow.record)
    : list LogWindow.put_text :=
  match lines with
  | [] => []
  | r :: rest =>
      LogWindow.draw_line w y_pos r ++ draw_rows w (y_pos + LogWindow.line_height w) rest
  end.

(** The four records the constructor adds. *)
Definition welcome (ts1 ts2 ts3 ts4 : string) : list LogWindow.record :=
  [ (ts1, "system", "Log window initialized");
    (ts2, "system", "Press keys 1-5 to toggle diagnostic categories");
    (ts3, "system", "Press 'f' to force a full diagnostic log");
    (ts4, "system", "window can be resized by dragging") ].

(** [LogWindow()] with its default arguments, created at noon. *)
Definition default_window : option LogWindow.t :=
  snd <$> LogWindow.__init__ "System Logs" (1000, 600) 100 true
            "12:00:00" "12:00:00" "12:00:00" "12:00:00".

(** Twenty-seven sensor readings logged one second apart. *)
Definition readings : list LogWindow.record :=
  map (λ i : nat, ("12:00:" +:+ str (10 + Z.of_nat i), "sensors", "reading " +:+ str (Z.of_nat i)))
      (seq 0 27).

(** The default window after these readings: 31 records in the buffer. *)
Definition busy_window : option LogWindow.t :=
  LogWindow.add_logs readings <$> default_window.

(** [LogWindow(max_lines=0)]. *)
Definition empty_window : option LogWindow.t :=
  snd <$> LogWindow.__init__ "System Logs" (1000, 600) 0 true
            "12:00:00" "12:00:00" "12:00:00" "12:00:00".

(** *** Vocabulary of the manager's specification *)

(** The key of the rate limiter's entry for a channel name and a level. *)
Definition limiter_key (name : string) (level : Z) : string :=
  name +:+ ":" +:+ str level.

(** [now - last >= 1.0 / limit] evaluates to [True].  For [limit = 0] the
    division raises and the comparison has no value. *)
Definition interval_elapsed (limit now last : float) : bool :=
  negb (PrimFloat.eqb limit 0) &&
  PrimFloat.leb (PrimFloat.div 1 limit) (PrimFloat.sub now last).

(** Two calls of [rate_limited_log] in a row for the same logger, level
    and cap, at the clock readings [t1] and [t2]. *)
Definition log_twice (logger : nat) (level : Z) (message : string) (limit t1 t2 : float)
    (w : LoggingManager.world) : option (LoggingManager.outcome * LoggingManager.outcome) :=
  match LoggingManager.rate_limited_log logger level message limit t1 w with
  | Some (o1, w1) =>
      match LoggingManager.rate_limited_log logger level message limit t2 w1 with
      | Some (o2, _) => Some (o1, o2)
      | None => None
      end
  | None => None
  end.

(** One call of [rate_limited_log]: its arguments and the clock reading. *)
Record call : Type := Call {
  call_logger : nat;
  call_level : Z;
  call_message : string;
  call_limit : float;
  call_time : float
}.

(** A sequence of calls of [rate_limited_log], and how each one ends. *)
Fixpoint run_calls (cs : list call) (w : LoggingManager.world)
    : option (list LoggingManager.outcome) :=
  match cs with
  | [] => Some []
  | c :: cs =>
      match LoggingManager.rate_limited_log (call_logger c) (call_level c)
              (call_message c) (call_limit c) (call_time c) w with
      | Some (o, w) => (o ::.) <$> run_calls cs w
      | None => None
      end
  end.

(** The rate limiter as the specification words it: a table from
    (channel name, level) to the last accepted time; [shouldEmit] accepts
    the first call for a key and, later, a call at least the interval
    after the last accepted one, and records the time of what it accepts. *)
Definition shouldEmit (channelName : string) (level : Z) (limit now : float)
    (table : gmap (string * Z) float) : bool * gmap (string * Z) float :=
  match table !! (channelName, level) with
  | None => (true, <[(channelName, level) := now]> table)
  | Some lastAccepted =>
      if interval_elapsed limit now lastAccepted
      then (true, <[(channelName, level) := now]> table)
      else (false, table)
  end.

(** [shouldEmit] over a sequence of calls, each with its channel name. *)
Fixpoint shouldEmit_all (cs : list (string * call)) (table : gmap (string * Z) float)
    : list bool :=
  match cs with
  | [] => []
  | (n, c) :: cs =>
      let '(b, table) := shouldEmit n (call_level c) (call_limit c) (call_time c) table in
      b :: shouldEmit_all cs table
  end.

(** The manager's dict, keyed by the text "name:level", holds what the
    specification's table holds. *)
Definition limiter_refines (table : gmap (string * Z) float)
    (rate_limiters : gmap string float) : Prop :=
  ∀ n l, rate_limiters !! limiter_key n l = table !! (n, l).

Definition emitted (o : LoggingManager.outcome) : bool :=
  match o with LoggingManager.Emitted => true | _ => false end.

(** The character [c] occurs in [s]. *)
Fixpoint occurs (c : ascii) (s : string) : Prop :=
  match s with
  | EmptyString => False
  | String a s' => a = c ∨ occurs c s'
  end.

(** A manager constructed with the default arguments in a fresh process. *)
Definition default_world : LoggingManager.world :=
  LoggingManager.__init__ "logs" logging.INFO true true 10 5 logging.fresh.

(** The five special categories. *)
Definition special_names : list string :=
  ["diagnostic"; "sensor"; "sync"; "control"; "performance"].

Definition is_special (name : string) : bool := bool_decide (name ∈ special_names).

(** A logger with its level replaced. *)
Definition with_level (level : Z) (l : logging.Logger) : logging.Logger :=
  logging.mkLogger (logging.name l) level (logging.propagate l) (logging.handlers l).

(** The library state is well formed, and nobody has switched off the
    propagation of a logger other than the special ones: the root and
    every named logger are live objects, a named logger has the name it is
    filed under, the root is not in the table of named loggers, no two
    names share an object, and the root and every logger whose name is not
    special propagate. *)
Definition library_ok (p : logging.state) : Prop :=
  (∃ r, logging.objects p !! logging.root = Some r ∧ logging.propagate r = true)
  ∧ (∀ n a, logging.loggerDict p !! n = Some a →
       a ≠ logging.root
       ∧ ∃ lg, logging.objects p !! a = Some lg
               ∧ logging.name lg = n
               ∧ (is_special n = false → logging.propagate lg = true))
  ∧ (∀ n1 n2 a, logging.loggerDict p !! n1 = Some a →
       logging.loggerDict p !! n2 = Some a → n1 = n2).

(** The manager's dict of special loggers has the five keys, over a well
    formed library. *)
Definition registry_ok (w : LoggingManager.world) : Prop :=
  library_ok w.2 ∧ (LoggingManager.special_loggers w.1).*1 = special_names.

(** A manager after its constructor: moreover the root logger is
    registered under "root" and each special category has its logger. *)
Definition manager_ok (w : LoggingManager.world) : Prop :=
  registry_ok w
  ∧ LoggingManager.loggers w.1 !! "root" = Some logging.root
  ∧ ∀ c, c ∈ special_names →
      ∃ a lg, LoggingManager.special_get c (LoggingManager.special_loggers w.1) = Some (Some a)
              ∧ logging.objects w.2 !! a = Some lg.

(** The rotating-file handler the constructor gives a special category. *)
Definition special_file_handler (self : LoggingManager.t) (category : string)
    : logging.Handler :=
  logging.RotatingFileHandler
    (os_path_join (LoggingManager.log_dir self) (category +:+ ".log"))
    (LoggingManager.max_file_size_mb self * 1024 * 1024)
    (LoggingManager.backup_count self)
    (LoggingManager.detailed_format self).

(** The special category [c] is set up: its logger is registered under
    its name in both dicts, does not propagate and, when file output is
    enabled, has the category's file handler. *)
Definition special_ready (w : LoggingManager.world) (c : string) : Prop :=
  ∃ a lg,
    LoggingManager.special_get c (LoggingManager.special_loggers w.1) = Some (Some a)
    ∧ LoggingManager.loggers w.1 !! c = Some a
    ∧ logging.objects w.2 !! a = Some lg
    ∧ logging.name lg = c
    ∧ logging.propagate lg = false
    ∧ (LoggingManager.enable_file w.1 = true →
         special_file_handler w.1 c ∈ logging.handlers lg).

(** The configuration a manager was constructed with. *)
Definition config (self : LoggingManager.t) :=
  (LoggingManager.log_dir self, LoggingManager.default_level self,
   LoggingManager.enable_console self, LoggingManager.enable_file self,
   LoggingManager.max_file_size_mb self, LoggingManager.backup_count self,
   LoggingManager.standard_format self, LoggingManager.detailed_format self).

(** The worlds a program can bring about: it constructs the manager in a
    process whose library state is well formed, and then calls its
    methods. *)
Inductive reachable : LoggingManager.world → Prop :=
| reach_init log_dir level console file mb backups p :
    library_ok p →
    reachable (LoggingManager.__init__ log_dir level console file mb backups p)
| reach_get_logger name w :
    reachable w → reachable (LoggingManager.get_logger name w).2
| reach_set_level level names w :
    reachable w → reachable (LoggingManager.set_level level names w)
| reach_toggle category enable w w' :
    reachable w →
    LoggingManager.toggle_special_logger category enable w = Some w' →
    reachable w'
| reach_rate_limited logger level message limit now w o w' :
    reachable w →
    LoggingManager.rate_limited_log logger level message limit now w = Some (o, w') →
    reachable w'.

(** [get_logger(name)] called [n] times in a row: the handles returned and
    the world afterwards. *)
Fixpoint get_logger_times (n : nat) (name : string) (w : LoggingManager.world)
    : list nat * LoggingManager.world :=
  match n with
  | O => ([], w)
  | S n =>
      let '(a, w) := LoggingManager.get_logger name w in
      let '(hs, w) := get_logger_times n name w in
      (a :: hs, w)
  end.

(** A process that has imported the module and not yet touched it. *)
Definition new_process : process := mkProcess None logging.fresh.

(** *** Further vocabulary *)

(** The number of rows the drawing loop of [render] reaches on a canvas of
    the given height before its [break]; the first row is drawn whatever
    the height. *)
Definition rows_drawn (height : Z) : nat := Z.to_nat (Z.max 1 ((height - 11) / 20)).

(** The categories that [category_colors] gives a colour of their own. *)
Definition colour_names : list string :=
  ["system"; "sensors"; "sync"; "control"; "performance"].

(** One call of a method of the manager: the world before and the world
    after. *)
Inductive method_call : LoggingManager.world → LoggingManager.world → Prop :=
| call_get_logger name w :
    method_call w (LoggingManager.get_logger name w).2
| call_set_level level names w :
    method_call w (LoggingManager.set_level level names w)
| call_toggle category enable w w' :
    LoggingManager.toggle_special_logger category enable w = Some w' →
    method_call w w'
| call_rate_limited logger level message limit now w o w' :
    LoggingManager.rate_limited_log logger level message limit now w = Some (o, w') →
    method_call w w'.

(** The logger the library files under a name. *)
Definition named (p : logging.state) (n : string) : option logging.Logger :=
  logging.loggerDict p !! n ≫= λ a, logging.objects p !! a.

(** What the constructor makes of the logger of a special category: the
    logger the library had under that name, or a new one, with propagation
    switched off and the category's file handler appended when file output
    is enabled. *)
Definition special_logger_after (self : LoggingManager.t) (c : string)
    (before : option logging.Logger) : logging.Logger :=
  let lg := default (logging.mkLogger c logging.NOTSET true []) before in
  logging.mkLogger (logging.name lg) (logging.level lg) false
    (logging.handlers lg
     ++ if LoggingManager.enable_file self then [special_file_handler self c] else []).

(** The handlers the constructor gives the root logger. *)
Definition root_handlers (self : LoggingManager.t) : list logging.Handler :=
  (if LoggingManager.enable_console self
   then [logging.StreamHandler (LoggingManager.standard_format self)] else [])
  ++ (if LoggingManager.enable_file self
      then [logging.RotatingFileHandler
              (os_path_join (LoggingManager.log_dir self) "main.log")
              (LoggingManager.max_file_size_mb self * 1024 * 1024)
              (LoggingManager.backup_count self)
              (LoggingManager.detailed_format self)]
      else []).

(** A constructed manager, in full: beyond [manager_ok], each special
    category is registered in both dicts under one handle, and a registered
    name denotes the root logger if it is empty or "root" and otherwise the
    logger the library files under it. *)
Definition manager_wf (w : LoggingManager.world) : Prop :=
  manager_ok w
  ∧ (∀ c, c ∈ special_names →
       ∃ a, LoggingManager.special_get c (LoggingManager.special_loggers w.1) = Some (Some a)
            ∧ LoggingManager.loggers w.1 !! c = Some a)
  ∧ (∀ n a, LoggingManager.loggers w.1 !! n = Some a →
       if bool_decide (n = EmptyString ∨ n = "root") then a = logging.root
       else logging.loggerDict w.2 !! n = Some a).


(** The accessor methods of the special loggers, each with its category. *)
Definition accessors : list (string * (LoggingManager.t → option (option nat))) :=
  [("diagnostic", LoggingManager.get_diagnostic_logger);
   ("sensor", LoggingManager.get_sensor_logger);
   ("sync", LoggingManager.get_sync_logger);
   ("control", LoggingManager.get_control_logger);
   ("performance", LoggingManager.get_performance_logger)].

(** The module-level accessors of the special loggers. *)
Definition module_accessors : list (string * (process → option (option nat) * process)) :=
  [("diagnostic", get_diagnostic_logger);
   ("sensor", get_sensor_logger);
   ("sync", get_sync_logger);
   ("control", get_control_logger);
   ("performance", get_performance_logger)].

(** A process in good order: while the global is unset the logging
    library is well formed, and once it is set the manager and the library
    are in a state a program can bring about. *)
Definition process_ok (pr : process) : Prop :=
  match _logging_manager pr with
  | Some self => reachable (self, lib pr)
  | None => library_ok (lib pr)
  end.

(** The library state is well formed, whatever the propagation flags are:
    the root logger is a live object, and every name of the table of
    named loggers stands for a live object other than the root logger that
    bears this name. *)
Definition library_wf (p : logging.state) : Prop :=
  is_Some (logging.objects p !! logging.root)
  ∧ ∀ n a, logging.loggerDict p !! n = Some a →
      a ≠ logging.root
      ∧ ∃ lg, logging.objects p !! a = Some lg ∧ logging.name lg = n.

(** The logger [get_logger] hands out for a name it has not registered
    yet: the logger the library had under that name, or a new one, with
    propagation switched off when the name is one of the special ones. *)
Definition logger_for (name : string) (before : option logging.Logger) : logging.Logger :=
  let lg := default (logging.mkLogger name logging.NOTSET true []) before in
  logging.mkLogger (logging.name lg) (logging.level lg)
    (if is_special name then false else logging.propagate lg) (logging.handlers lg).

(** The default manager in a process where another module has asked the
    library for the logger "can", set its level to [DEBUG] and switched
    its propagation off. *)
Definition silenced_world : LoggingManager.world :=
  let '(can, p) := logging.getLogger "can" default_world.2 in
  (default_world.1, logging.set_propagate false can (logging.setLevel logging.DEBUG can p)).
(** ** Part II: properties *)

(** *** The ring buffer of the overlay *)

Section Deque.
Context {A : Type}.
Implicit Types (d rs : list A) (x : A) (n : nat).

Lemma tail_drop d : tail d = drop 1 d.
Proof. by destruct d. Qed.

Lemma deque_append_most_recent n x d :
  (length d ≤ n)%nat →
  LogWindow.deque_append (Z.of_nat n) x d = most_recent n (d ++ [x]).
Proof.
  intros Hd. unfold LogWindow.deque_append, most_recent.
  rewrite length_app. simpl length.
  destruct (Z.gtb_spec (Z.of_nat (length d + 1)) (Z.of_nat n)) as [Hgt|Hle].
  - assert (length d = n) as -> by lia.
    replace (n + 1 - n)%nat with 1%nat by lia. apply tail_drop.
  - replace (length d + 1 - n)%nat with 0%nat by lia. by rewrite drop_0.
Qed.

Lemma length_most_recent n (l : list A) :
  length (most_recent n l) = (length l `min` n)%nat.
Proof. unfold most_recent. rewrite length_drop. lia. Qed.

Lemma most_recent_app n (l1 l2 : list A) :
  most_recent n (most_recent n l1 ++ l2) = most_recent n (l1 ++ l2).
Proof.
  unfold most_recent. rewrite !length_app, length_drop.
  destruct (decide (length l1 ≤ n)%nat) as [Hle|Hgt].
  - replace (length l1 - n)%nat with 0%nat by lia. rewrite drop_0.
    f_equal. lia.
  - rewrite !drop_app. rewrite drop_drop.
    rewrite length_drop.
    replace (length l1 - n + (length l1 - (length l1 - n) + length l2 - n))%nat
      with (length l1 + length l2 - n)%nat by lia.
    f_equal. f_equal. lia.
Qed.

Lemma foldl_deque_append n rs d :
  (length d ≤ n)%nat →
  foldl (λ d x, LogWindow.deque_append (Z.of_nat n) x d) d rs = most_recent n (d ++ rs).
Proof.
  revert d. induction rs as [|x rs IH]; intros d Hd; simpl.
  - rewrite app_nil_r. unfold most_recent.
    replace (length d - n)%nat with 0%nat by lia. by rewrite drop_0.
  - rewrite IH.
    + rewrite deque_append_most_recent by done.
      rewrite most_recent_app. by rewrite <- app_assoc.
    + rewrite deque_append_most_recent by done.
      rewrite length_most_recent. lia.
Qed.

End Deque.

Section Window.
Implicit Types (w : LogWindow.t) (rs : list LogWindow.record).

Lemma add_log_max_lines ts c m w :
  LogWindow.max_lines (LogWindow.add_log ts c m w) = LogWindow.max_lines w.
Proof. done. Qed.

Lemma add_log_ok ts c m w : buffer_ok w → buffer_ok (LogWindow.add_log ts c m w).
Proof.
  intros [Hcap Hlen]. split; [done|]. simpl.
  rewrite <- (Z2Nat.id (LogWindow.max_lines w)) by done.
  rewrite deque_append_most_recent by lia.
  rewrite length_most_recent. lia.
Qed.

Lemma clear_ok ts w : 0 ≤ LogWindow.max_lines w → buffer_ok (LogWindow.clear ts w).
Proof.
  intros Hcap. apply add_log_ok. split; simpl; lia.
Qed.

Lemma step_ok w o : buffer_ok w → buffer_ok (LogWindow.step w o).
Proof.
  intros Hw. destruct o; simpl; auto using add_log_ok.
  apply clear_ok, Hw.
Qed.

Lemma step_max_lines w o :
  LogWindow.max_lines (LogWindow.step w o) = LogWindow.max_lines w.
Proof. by destruct o. Qed.

Lemma run_ok ops w :
  buffer_ok w →
  buffer_ok (LogWindow.run ops w) ∧
  LogWindow.max_lines (LogWindow.run ops w) = LogWindow.max_lines w.
Proof.
  unfold LogWindow.run. revert w.
  induction ops as [|o ops IH]; intros w Hw; simpl; [done|].
  destruct (IH (LogWindow.step w o)) as [? ->]; auto using step_ok, step_max_lines.
Qed.

Lemma window_init_ok name size cap ok t1 t2 t3 t4 rep w :
  LogWindow.__init__ name size cap ok t1 t2 t3 t4 = Some (rep, w) →
  buffer_ok w ∧ LogWindow.max_lines w = cap.
Proof.
  unfold LogWindow.__init__. destruct (Z.ltb_spec cap 0); [done|].
  intros [= _ <-]. split; [|done].
  do 4 apply add_log_ok. split; simpl; lia.
Qed.

Lemma log_lines_add_logs rs w :
  buffer_ok w →
  LogWindow.log_lines (LogWindow.add_logs rs w)
  = most_recent (Z.to_nat (LogWindow.max_lines w)) (LogWindow.log_lines w ++ rs).
Proof.
  intros [Hcap Hlen].
  rewrite <- foldl_deque_append by lia. rewrite Z2Nat.id by done.
  unfold LogWindow.add_logs. clear Hlen. revert w Hcap.
  induction rs as [|[[ts c] m] rs IH]; intros w Hcap; simpl; [done|].
  by rewrite IH.
Qed.

Lemma most_recent_overflow {A} (l rs : list A) (n k : nat) :
  length rs = (n + k)%nat → most_recent n (l ++ rs) = drop k rs.
Proof.
  intros Hrs. unfold most_recent. rewrite length_app, Hrs.
  replace (length l + (n + k) - n)%nat with (length l + k)%nat by lia.
  by rewrite drop_app_add.
Qed.

(** C3: a window built by the constructor and used in any way keeps at
    most [max_lines] records; after [max_lines + k] further calls of
    [add_log] (k > 0) it holds exactly [max_lines] records, the most recent
    [max_lines] of those insertions in insertion order. *)
Theorem add_log_keeps_most_recent name size cap ok t1 t2 t3 t4 rep w0 ops rs k :
  LogWindow.__init__ name size cap ok t1 t2 t3 t4 = Some (rep, w0) →
  (0 < k)%nat →
  length rs = (Z.to_nat cap + k)%nat →
  LogWindow.log_lines (LogWindow.add_logs rs (LogWindow.run ops w0))
    = most_recent (Z.to_nat cap) rs
  ∧ most_recent (Z.to_nat cap) rs = drop k rs
  ∧ length (LogWindow.log_lines (LogWindow.add_logs rs (LogWindow.run ops w0)))
    = Z.to_nat cap
  ∧ ∀ ops', Z.of_nat (length (LogWindow.log_lines (LogWindow.run ops' w0))) ≤ cap.
Proof.
  intros Hinit Hk Hrs.
  destruct (window_init_ok _ _ _ _ _ _ _ _ _ _ Hinit) as [Hw0 Hcap].
  destruct (run_ok ops w0 Hw0) as [Hw Hcap'].
  assert (most_recent (Z.to_nat cap) rs = drop k rs) as Hrecent.
  { unfold most_recent. f_equal. lia. }
  assert (LogWindow.log_lines (LogWindow.add_logs rs (LogWindow.run ops w0))
          = drop k rs) as Hlines.
  { rewrite log_lines_add_logs by done. rewrite Hcap', Hcap.
    by apply most_recent_overflow. }
  repeat split.
  - by rewrite Hlines.
  - done.
  - rewrite Hlines, length_drop. lia.
  - intros ops'. destruct (run_ok ops' w0 Hw0) as [[_ Hlen] Hc].
    rewrite <- Hcap, <- Hc. done.
Qed.

(** An instance: a window of capacity 2, cleared, then three records. *)
Lemma add_log_keeps_most_recent_witness :
  ∃ w0,
    snd <$> LogWindow.__init__ "System Logs" (1000, 600) 2 true "a" "b" "c" "d" = Some w0
    ∧ LogWindow.log_lines
        (LogWindow.add_logs
           [("e", "sync", "one"); ("f", "sync", "two"); ("g", "sync", "three")]
           (LogWindow.run [LogWindow.Clear "d"] w0))
      = [("f", "sync", "two"); ("g", "sync", "three")].
Proof.
  eexists. split; [reflexivity|].
  epose proof (add_log_keeps_most_recent "System Logs" (1000, 600) 2 true "a" "b" "c" "d"
                 _ _ [LogWindow.Clear "d"]
                 [("e", "sync", "one"); ("f", "sync", "two"); ("g", "sync", "three")]
                 1 eq_refl _ eq_refl) as (H1 & H2 & _).
  exact (eq_trans H1 H2).
  Unshelve. lia.
Defined.

Lemma add_log_room ts c m ls w :
  LogWindow.log_lines w = ls →
  Z.of_nat (length ls) < LogWindow.max_lines w →
  LogWindow.log_lines (LogWindow.add_log ts c m w) = ls ++ [(ts, c, m)].
Proof.
  intros <- Hroom. simpl. unfold LogWindow.deque_append.
  rewrite length_app. simpl length.
  destruct (Z.gtb_spec (Z.of_nat (length (LogWindow.log_lines w) + 1))
              (LogWindow.max_lines w)); [lia|done].
Qed.

(** C10, amended: for every [max_lines] that is not negative the
    constructor returns (whether or not the window could be created), and
    the buffer then holds the last [max_lines] of the four welcome
    records, in the order they were added, each of category "system":
    all four of them when [max_lines] is at least 4, only the later ones
    when it is smaller, and none when it is 0. *)
Theorem init_welcome_records name size cap ok t1 t2 t3 t4 :
  0 ≤ cap →
  ∃ rep w,
    LogWindow.__init__ name size cap ok t1 t2 t3 t4 = Some (rep, w)
    ∧ LogWindow.log_lines w = most_recent (Z.to_nat cap) (welcome t1 t2 t3 t4)
    ∧ length (LogWindow.log_lines w) = Z.to_nat (Z.min 4 cap)
    ∧ Forall (λ r, r.1.2 = "system") (LogWindow.log_lines w)
    ∧ (4 ≤ cap →
         LogWindow.log_lines w = welcome t1 t2 t3 t4
         ∧ length (LogWindow.log_lines w) = 4%nat).
Proof.
  intros Hcap. unfold LogWindow.__init__.
  destruct (Z.ltb_spec cap 0); [lia|].
  eexists _, _. split; [reflexivity|].
  match goal with |- LogWindow.log_lines ?W = _ ∧ _ =>
    assert (LogWindow.log_lines W = most_recent (Z.to_nat cap) (welcome t1 t2 t3 t4)) as ->
  end.
  { exact (log_lines_add_logs (welcome t1 t2 t3 t4)
             (LogWindow.mk name size cap [] 0.5%float 20 LogWindow.default_colors)
             (conj Hcap Hcap)). }
  split; [done|]. split; [rewrite length_most_recent; unfold welcome; simpl length; lia|].
  split.
  - unfold most_recent. apply Forall_drop. unfold welcome. repeat constructor.
  - intros H4. unfold most_recent, welcome. simpl length.
    replace (4 - Z.to_nat cap)%nat with 0%nat by lia. done.
Qed.

(** An instance: a window of capacity 2, with the window creation failing,
    holds the last two welcome records. *)
Lemma init_welcome_records_witness :
  ∃ rep w,
    LogWindow.__init__ "System Logs" (1000, 600) 2 false "a" "b" "c" "d" = Some (rep, w)
    ∧ LogWindow.log_lines w
      = [("c", "system", "Press 'f' to force a full diagnostic log");
         ("d", "system", "window can be resized by dragging")].
Proof.
  destruct (init_welcome_records "System Logs" (1000, 600) 2 false "a" "b" "c" "d")
    as (rep & w & Hinit & Hlines & _); [lia|].
  exists rep, w. split; [exact Hinit|]. rewrite Hlines. reflexivity.
Defined.

(** C10 as stated fails: [LogWindow(max_lines=0)] is constructed with an
    empty buffer. *)
Lemma init_zero_capacity_is_empty :
  ∃ w, empty_window = Some w ∧ LogWindow.log_lines w = []
       ∧ length (LogWindow.log_lines w) ≠ 4%nat.
Proof. eexists. split; [reflexivity|]. split; [reflexivity|]. discriminate. Qed.

(** C9, amended: in a window whose [max_lines] is at least 1, whatever the
    buffer held, after [clear] it holds exactly one record, of category
    "system" and message "Log cleared". *)
Theorem clear_leaves_one_record ts w :
  1 ≤ LogWindow.max_lines w →
  LogWindow.log_lines (LogWindow.clear ts w) = [(ts, "system", "Log cleared")].
Proof.
  intros Hcap. unfold LogWindow.clear.
  by rewrite (add_log_room _ _ _ []); [| |simpl; lia].
Qed.

(** An instance: clearing the default window. *)
Lemma clear_leaves_one_record_witness :
  ∃ w, default_window = Some w
       ∧ LogWindow.log_lines (LogWindow.clear "12:01:00" w)
         = [("12:01:00", "system", "Log cleared")].
Proof.
  eexists. split; [reflexivity|].
  apply clear_leaves_one_record. vm_compute. discriminate.
Defined.

(** C9 as stated fails: in [LogWindow(max_lines=0)] the buffer is empty
    after [clear]. *)
Lemma clear_zero_capacity_is_empty :
  ∃ w, empty_window = Some w
       ∧ LogWindow.log_lines (LogWindow.clear "12:01:00" w) = []
       ∧ LogWindow.log_lines (LogWindow.clear "12:01:00" w)
         ≠ [("12:01:00", "system", "Log cleared")].
Proof. eexists. split; [reflexivity|]. split; [reflexivity|]. discriminate. Qed.

(** The drawing loop stops after [n] rows when the [n]-th advance of
    [y_pos] is the first to reach the bottom margin. *)
Lemma draw_loop_break w (n : nat) : ∀ y lines,
  (1 ≤ n)%nat →
  (∀ j : nat, (1 ≤ j < n)%nat →
     y + Z.of_nat j * LogWindow.line_height w < snd (LogWindow.window_size w) - 10) →
  snd (LogWindow.window_size w) - 10 ≤ y + Z.of_nat n * LogWindow.line_height w →
  LogWindow.draw_loop w y lines = draw_rows w y (take n lines).
Proof.
  induction n as [|n IH]; intros y lines Hn Hbefore Hat; [lia|].
  destruct lines as [|r rest]; [done|]. simpl.
  f_equal.
  destruct (Z.geb_spec (y + LogWindow.line_height w)
              (snd (LogWindow.window_size w) - 10)) as [Hstop|Hgo].
  - destruct n as [|n]; [by rewrite take_0|].
    specialize (Hbefore 1%nat ltac:(lia)). lia.
  - destruct n as [|n]; [lia|].
    apply IH; [lia| |lia].
    intros j Hj. specialize (Hbefore (S j) ltac:(lia)). lia.
Qed.

(** On a canvas whose height leaves at most 10 pixels beyond a whole
    number [V ≥ 2] of 20-pixel lines, [render] of a buffer of more than [V]
    records starts at the [V]-th most recent record but stops after
    [V - 1] rows: the most recent record is not drawn. *)
Lemma render_stops_one_row_early w width height (V : nat) :
  LogWindow.window_size w = (width, height) →
  LogWindow.line_height w = 20 →
  0 ≤ width →
  (2 ≤ V)%nat →
  20 * Z.of_nat V ≤ height ≤ 20 * Z.of_nat V + 10 →
  (V < length (LogWindow.log_lines w))%nat →
  LogWindow.render w =
    LogWindow.Frame
      (draw_rows w 20
         (take (V - 1) (drop (length (LogWindow.log_lines w) - V) (LogWindow.log_lines w))))
      true.
Proof.
  intros Hsize Hlh Hwidth HV Hheight Hlen. unfold LogWindow.render.
  rewrite Hsize, Hlh.
  destruct (Z.ltb_spec height 0); [lia|].
  destruct (Z.ltb_spec width 0); [lia|]. simpl orb. cbv iota.
  assert (height / 20 = Z.of_nat V) as ->.
  { symmetry. apply (Z.div_unique _ _ _ (height - 20 * Z.of_nat V)); lia. }
  rewrite Z.min_l, Z.max_r by lia.
  replace (Z.to_nat (Z.of_nat (length (LogWindow.log_lines w)) - Z.of_nat V))
    with (length (LogWindow.log_lines w) - V)%nat by lia.
  f_equal. apply draw_loop_break; rewrite ?Hsize, ?Hlh; simpl snd; [lia| |lia].
  intros j Hj. lia.
Qed.

(** On a canvas whose height leaves more than 10 pixels beyond a whole
    number [V ≥ 1] of lines, the loop is not cut short: [render] draws the
    [V] most recent records, oldest first. *)
Lemma render_draws_visible_rows w width height (V : nat) :
  LogWindow.window_size w = (width, height) →
  LogWindow.line_height w = 20 →
  0 ≤ width →
  (1 ≤ V)%nat →
  20 * Z.of_nat V + 10 < height < 20 * Z.of_nat V + 20 →
  (V < length (LogWindow.log_lines w))%nat →
  LogWindow.render w
  = LogWindow.Frame (draw_rows w 20 (most_recent V (LogWindow.log_lines w))) true.
Proof.
  intros Hsize Hlh Hwidth HV Hheight Hlen. unfold LogWindow.render.
  rewrite Hsize, Hlh.
  destruct (Z.ltb_spec height 0); [lia|].
  destruct (Z.ltb_spec width 0); [lia|]. simpl orb. cbv iota.
  assert (height / 20 = Z.of_nat V) as ->.
  { symmetry. apply (Z.div_unique _ _ _ (height - 20 * Z.of_nat V)); lia. }
  rewrite Z.min_l, Z.max_r by lia.
  replace (Z.to_nat (Z.of_nat (length (LogWindow.log_lines w)) - Z.of_nat V))
    with (length (LogWindow.log_lines w) - V)%nat by lia.
  f_equal. unfold most_recent.
  rewrite (draw_loop_break w V); rewrite ?Hsize, ?Hlh; simpl snd; [|lia|intros; lia|lia].
  f_equal. apply take_ge. rewrite length_drop. lia.
Qed.

(** C2 fails on the code: in the default 1000x600 window (V = 600 / 20 =
    30 lines) holding 31 records, [render] starts at the 30th most recent
    record but leaves the loop after 29 rows, so the most recent record is
    not drawn, against the docstring "always show most recent logs". *)
Theorem render_default_window_omits_newest :
  ∃ w, busy_window = Some w
    ∧ length (LogWindow.log_lines w) = 31%nat
    ∧ snd (LogWindow.window_size w) / LogWindow.line_height w = 30
    ∧ LogWindow.render w
      = LogWindow.Frame (draw_rows w 20 (take 29 (drop 1 (LogWindow.log_lines w)))) true
    ∧ LogWindow.drawn (LogWindow.render w)
      ≠ draw_rows w 20 (most_recent 30 (LogWindow.log_lines w))
    ∧ last (LogWindow.log_lines w) = Some ("12:00:36", "sensors", "reading 26")
    ∧ "reading 26" ∉ LogWindow.text <$> LogWindow.drawn (LogWindow.render w).
Proof.
  eexists. split; [vm_compute; reflexivity|].
  split; [vm_compute; reflexivity|]. split; [vm_compute; reflexivity|].
  split.
  { etrans; [apply (render_stops_one_row_early _ 1000 600 30)|].
    - vm_compute; reflexivity.
    - vm_compute; reflexivity.
    - lia.
    - lia.
    - lia.
    - vm_compute. lia.
    - vm_compute; reflexivity. }
  split; [vm_compute; discriminate|].
  split; [vm_compute; reflexivity|].
  apply (bool_decide_eq_false_1 _). vm_compute. reflexivity.
Qed.

End Window.

(** *** The rate limiter *)

Section RateLimiter.
Import logging LoggingManager.

Lemma uint_no_colon d : ¬ occurs ":" (NilEmpty.string_of_uint d).
Proof. induction d; simpl; [tauto|..]; intros [H|H]; try discriminate H; auto. Qed.

Lemma nzuint_no_colon d : ¬ occurs ":" (NilZero.string_of_uint d).
Proof.
  destruct d; try apply uint_no_colon.
  simpl. intros [H|[]]. discriminate H.
Qed.

Lemma str_no_colon z : ¬ occurs ":" (str z).
Proof.
  unfold str, NilZero.string_of_int.
  destruct (Z.to_int z) as [d|d]; [apply nzuint_no_colon|].
  simpl. intros [H|H]; [discriminate H|]. by apply nzuint_no_colon in H.
Qed.

Lemma str_inj z1 z2 : str z1 = str z2 → z1 = z2.
Proof.
  intros H. apply DecimalZ.to_int_inj.
  assert (∀ z, Z.to_int z ≠ Decimal.Pos Decimal.Nil ∧ Z.to_int z ≠ Decimal.Neg Decimal.Nil)
    as Hnn.
  { intros [|q|q]; simpl; split; try discriminate;
      intros [= Hq]; by apply DecimalPos.Unsigned.to_uint_nonnil in Hq. }
  destruct (Hnn z1), (Hnn z2).
  assert (Some (Z.to_int z1) = Some (Z.to_int z2)) as [= ->]; [|done].
  rewrite <- !NilZero.isi by done. unfold str in H. by rewrite H.
Qed.

Lemma append_nil s : EmptyString +:+ s = s.
Proof. reflexivity. Qed.

Lemma append_cons a s t : String a s +:+ t = String a (s +:+ t).
Proof. reflexivity. Qed.

Lemma split_at_last_colon s1 : ∀ s2 d1 d2,
  ¬ occurs ":" d1 → ¬ occurs ":" d2 →
  s1 +:+ String ":" d1 = s2 +:+ String ":" d2 → s1 = s2 ∧ d1 = d2.
Proof.
  assert (∀ s d, occurs ":" (s +:+ String ":" d)) as Hocc.
  { induction s; intros d; rewrite ?append_nil, ?append_cons; simpl; auto. }
  induction s1 as [|a s1 IH]; intros [|b s2] d1 d2 H1 H2;
    rewrite ?append_nil, ?append_cons; intros Heq.
  - by injection Heq as ->.
  - injection Heq as <- ->. exfalso. apply H1, Hocc.
  - injection Heq as -> <-. exfalso. apply H2, Hocc.
  - injection Heq as -> Heq. by destruct (IH s2 d1 d2) as [-> ->].
Qed.

Lemma limiter_key_inj n1 l1 n2 l2 :
  limiter_key n1 l1 = limiter_key n2 l2 → n1 = n2 ∧ l1 = l2.
Proof.
  unfold limiter_key. intros H.
  apply (split_at_last_colon n1 n2 (str l1) (str l2)) in H as [-> H];
    auto using str_no_colon.
  by apply str_inj in H as ->.
Qed.

Lemma interval_elapsed_zero limit now last :
  PrimFloat.eqb limit 0 = true → interval_elapsed limit now last = false.
Proof. unfold interval_elapsed. by intros ->. Qed.

Lemma interval_elapsed_nonzero limit now last :
  PrimFloat.eqb limit 0 = false →
  interval_elapsed limit now last
  = PrimFloat.leb (PrimFloat.div 1 limit) (PrimFloat.sub now last).
Proof. unfold interval_elapsed. by intros ->. Qed.

(** [Logger.log] changes nothing but the list of records, and that by
    at most one record. *)
Lemma log_frame logger level message p :
  objects (log logger level message p) = objects p
  ∧ loggerDict (log logger level message p) = loggerDict p
  ∧ records (log logger level message p)
    = if isEnabledFor logger level p then records p ++ [(logger, level, message)]
      else records p.
Proof. unfold log. by destruct (isEnabledFor logger level p). Qed.

Lemma log_prefix logger level message p :
  records p `prefix_of` records (log logger level message p).
Proof.
  destruct (log_frame logger level message p) as (_ & _ & ->).
  destruct (isEnabledFor logger level p); [by apply prefix_app_r|done].
Qed.

(** C1: a call of [rate_limited_log] for a live logger returns or raises as
    follows.  When the limiter has no entry for the (channel name, level)
    pair, the call emits and stores the current time.  When it has one and
    the cap is not 0, the call emits and stores the current time if
    [now - last >= 1.0 / limit] holds, and otherwise returns without
    emitting and changes nothing; when the cap is 0, it raises
    [ZeroDivisionError] and changes nothing.  To emit is to call
    [logger.log] exactly once; nothing else is done to the library, no
    logger is made or changed, and the entries of all other (channel
    name, level) pairs are untouched.  So of two calls in a row for a new
    pair the first emits, and the second emits, is suppressed or raises by
    the same rule. *)
Theorem rate_limited_log_spec logger lg level message limit now self p :
  objects p !! logger = Some lg →
  ∃ o self' p',
    rate_limited_log logger level message limit now (self, p) = Some (o, (self', p'))
    ∧ (rate_limiters self !! limiter_key (name lg) level = None →
         o = Emitted
         ∧ ∀ t2, log_twice logger level message limit now t2 (self, p)
                 = Some (Emitted,
                         if PrimFloat.eqb limit 0 then ZeroDivisionError
                         else if interval_elapsed limit t2 now then Emitted
                         else Suppressed))
    ∧ (∀ last, rate_limiters self !! limiter_key (name lg) level = Some last →
         o = if PrimFloat.eqb limit 0 then ZeroDivisionError
             else if interval_elapsed limit now last then Emitted
             else Suppressed)
    ∧ (self', p')
      = (if o is Emitted
         then (set_rate_limiters
                 (<[limiter_key (name lg) level := now]> (rate_limiters self)) self,
               log logger level message p)
         else (self, p))
    ∧ (o = Emitted → rate_limiters self' !! limiter_key (name lg) level = Some now)
    ∧ (∀ n l, (n, l) ≠ (name lg, level) →
         rate_limiters self' !! limiter_key n l = rate_limiters self !! limiter_key n l)
    ∧ objects p' = objects p ∧ loggerDict p' = loggerDict p.
Proof.
  intros Hlg.
  assert (∀ n l (v : float) (m : gmap string float),
            (n, l) ≠ (name lg, level) →
            <[limiter_key (name lg) level := v]> m !! limiter_key n l
            = m !! limiter_key n l) as Hframe.
  { intros n l v m Hne. apply lookup_insert_ne.
    intros Hk. apply limiter_key_inj in Hk as [Hn Hl]. congruence. }
  destruct (log_frame logger level message p) as (Hobj & Hdict & _).
  unfold rate_limited_log. rewrite Hlg. fold (limiter_key (name lg) level).
  destruct (rate_limiters self !! limiter_key (name lg) level) as [last|] eqn:Hkey.
  - destruct (PrimFloat.eqb limit 0) eqn:Hzero.
    + eexists _, _, _. split; [reflexivity|]. split; [intros [=]|].
      split; [by intros ? [= <-]|]. split; [reflexivity|].
      split; [intros [=]|]. by split_and!.
    + rewrite <- (interval_elapsed_nonzero limit now last) by done.
      destruct (interval_elapsed limit now last) eqn:Hcond.
      * eexists _, _, _. split; [reflexivity|]. split; [intros [=]|].
        split; [intros ? [= <-]; by rewrite Hcond|]. split; [reflexivity|].
        cbn [emitted andb rate_limiters set_rate_limiters].
        split; [intros _; apply lookup_insert_eq|]. split_and!; auto.
      * eexists _, _, _. split; [reflexivity|]. split; [intros [=]|].
        split; [intros ? [= <-]; by rewrite Hcond|]. split; [reflexivity|].
        split; [intros [=]|]. by split_and!.
  - eexists _, _, _. split; [reflexivity|]. split.
    + intros _. split; [reflexivity|].
      intros t2. unfold log_twice, rate_limited_log. rewrite Hlg.
      fold (limiter_key (name lg) level). rewrite Hkey.
      cbv beta iota zeta. rewrite Hobj, Hlg.
      fold (limiter_key (name lg) level).
      cbn [rate_limiters set_rate_limiters]. rewrite lookup_insert_eq.
      destruct (PrimFloat.eqb limit 0) eqn:Hzero; [reflexivity|].
      rewrite <- (interval_elapsed_nonzero limit t2 now) by done.
      by destruct (interval_elapsed limit t2 now).
    + split; [intros ? [=]|]. split; [reflexivity|].
      cbn [emitted andb rate_limiters set_rate_limiters].
      split; [intros _; apply lookup_insert_eq|]. split_and!; auto.
Qed.

(** An instance: two calls on the root logger half a second apart, at one
    message per second: the first emits, the second is suppressed. *)
Lemma rate_limited_log_spec_witness :
  log_twice root INFO "tick" 1 100 100.5 default_world = Some (Emitted, Suppressed).
Proof.
  assert (∃ lg, objects default_world.2 !! root = Some lg) as [lg Hlg].
  { eexists. vm_compute. reflexivity. }
  destruct (rate_limited_log_spec root lg INFO "tick" 1 100
              default_world.1 default_world.2 Hlg)
    as (o & self' & p' & _ & Hfirst & _).
  rewrite <- surjective_pairing in Hfirst.
  destruct Hfirst as (_ & Htwice).
  { revert Hlg. vm_compute. intros [= <-]. reflexivity. }
  exact (Htwice 100.5%float).
Defined.

(** With a cap of 0 messages per second the second call for a pair
    neither emits nor is suppressed, however long it comes after the
    first: it raises. *)
Lemma rate_limited_log_zero_cap_raises :
  log_twice root INFO "tick" 0 100 200 default_world = Some (Emitted, ZeroDivisionError).
Proof. vm_compute. reflexivity. Qed.

(** The manager's limiter refines the specification's [shouldEmit]: one
    call. *)
Lemma rate_limited_log_refines logger lg level message limit now self p table :
  objects p !! logger = Some lg →
  limiter_refines table (rate_limiters self) →
  ∃ o self',
    rate_limited_log logger level message limit now (self, p)
    = Some (o, (self', if emitted o then log logger level message p else p))
    ∧ emitted o = (shouldEmit (name lg) level limit now table).1
    ∧ limiter_refines (shouldEmit (name lg) level limit now table).2 (rate_limiters self').
Proof.
  intros Hlg Href.
  assert (∀ v, limiter_refines (<[(name lg, level) := v]> table)
                 (<[limiter_key (name lg) level := v]> (rate_limiters self))) as Hins.
  { intros v n l. destruct (decide ((n, l) = (name lg, level))) as [[= -> ->]|Hne].
    - by rewrite !lookup_insert_eq.
    - rewrite !lookup_insert_ne; [apply Href|congruence|].
      intros Hk. apply limiter_key_inj in Hk as [? ?]. congruence. }
  unfold rate_limited_log, shouldEmit. rewrite Hlg.
  fold (limiter_key (name lg) level). rewrite (Href (name lg) level).
  destruct (table !! (name lg, level)) as [last|].
  - destruct (PrimFloat.eqb limit 0) eqn:Hzero.
    + rewrite interval_elapsed_zero by done. by exists ZeroDivisionError, self.
    + rewrite <- (interval_elapsed_nonzero limit now last) by done.
      destruct (interval_elapsed limit now last).
      * eexists Emitted, _. split_and!; try done. apply Hins.
      * by exists Suppressed, self.
  - eexists Emitted, _. split_and!; try done. apply Hins.
Qed.

(** ... and any sequence of calls, on live loggers: the calls all return,
    and they emit exactly where [shouldEmit] accepts. *)
Lemma run_calls_refine (cs : list call) : ∀ names self p table,
  Forall2 (λ c n, name <$> objects p !! call_logger c = Some n) cs names →
  limiter_refines table (rate_limiters self) →
  ∃ os, run_calls cs (self, p) = Some os
        ∧ emitted <$> os = shouldEmit_all (zip names cs) table.
Proof.
  induction cs as [|c cs IH]; intros names self p table Hnames Href.
  - apply Forall2_nil_inv_l in Hnames as ->. by exists [].
  - apply Forall2_cons_inv_l in Hnames as (n & names' & Hn & Hnames & ->).
    destruct (objects p !! call_logger c) as [lg|] eqn:Hlg; [|done].
    injection Hn as <-.
    destruct (rate_limited_log_refines (call_logger c) lg (call_level c) (call_message c)
                (call_limit c) (call_time c) self p table Hlg Href)
      as (o & self' & Hcall & Ho & Href').
    cbn [run_calls zip zip_with shouldEmit_all]. rewrite Hcall.
    destruct (shouldEmit (name lg) (call_level c) (call_limit c) (call_time c) table)
      as [b table'] eqn:Hspec.
    simpl in Ho, Href'.
    destruct (IH names' self' (if emitted o then log (call_logger c) (call_level c)
                                                 (call_message c) p else p) table')
      as (os & -> & Hos); [|done|].
    { destruct (emitted o); [|done].
      by rewrite (proj1 (log_frame (call_logger c) (call_level c) (call_message c) p)). }
    exists (o :: os). split; [done|]. csimpl. by rewrite Ho, Hos.
Qed.

End RateLimiter.

(** *** The manager *)

Section Manager.
Import logging LoggingManager.
Implicit Types (p : state) (self : t) (w : world) (a b : nat) (lg : Logger).

Lemma objects_update f a p b :
  objects (update f a p) !! b
  = if decide (a = b) then f <$> objects p !! b else objects p !! b.
Proof. unfold update. simpl. rewrite list_lookup_alter. by case_decide; subst. Qed.

#[local] Arguments update : simpl never.

Lemma update_frame f a p :
  loggerDict (update f a p) = loggerDict p ∧ records (update f a p) = records p.
Proof. done. Qed.

Lemma objects_setLevel level a p b :
  objects (setLevel level a p) !! b
  = if decide (a = b) then with_level level <$> objects p !! b else objects p !! b.
Proof. apply objects_update. Qed.

Lemma with_level_idemp level lg : with_level level (with_level level lg) = with_level level lg.
Proof. done. Qed.

(** Setting the level of a list of loggers, one after the other. *)
Lemma setLevel_all level (addrs : list nat) : ∀ p,
  loggerDict (foldl (λ p a, setLevel level a p) p addrs) = loggerDict p
  ∧ records (foldl (λ p a, setLevel level a p) p addrs) = records p
  ∧ ∀ b, objects (foldl (λ p a, setLevel level a p) p addrs) !! b
         = if decide (b ∈ addrs) then with_level level <$> objects p !! b
           else objects p !! b.
Proof.
  induction addrs as [|a addrs IH]; intros p; cbn [foldl].
  - split; [done|]. split; [done|].
    intros b. by rewrite decide_False by apply not_elem_of_nil.
  - destruct (IH (setLevel level a p)) as (-> & -> & Hobj).
    split; [done|]. split; [done|]. intros b.
    rewrite Hobj, objects_setLevel.
    destruct (decide (a = b)) as [->|Hne].
    + rewrite (decide_True (P := b ∈ b :: addrs)) by left.
      case_decide; [|done].
      rewrite <- option_fmap_compose. by apply option_fmap_ext.
    + destruct (decide (b ∈ addrs)).
      * by rewrite decide_True by by right.
      * rewrite decide_False; [done|]. rewrite elem_of_cons. by intros [->|?].
Qed.

Lemma set_level_names_omap level self names : ∀ p,
  foldl (λ p name, match loggers self !! name with
                   | Some logger => setLevel level logger p
                   | None => p
                   end) p names
  = foldl (λ p a, setLevel level a p) p (omap (λ n, loggers self !! n) names).
Proof.
  induction names as [|n names IH]; intros p; simpl; [done|].
  destruct (loggers self !! n); simpl; apply IH.
Qed.

(** C6: [set_level] never raises and changes nothing but levels.  With a
    list of names it sets the level of exactly the loggers registered
    under one of the names; names that are not registered are skipped, and
    every other logger is left as it was.  Without a list it sets the level
    of every registered logger. *)
Theorem set_level_spec level self p :
  (∀ names,
     let w' := set_level level (Some names) (self, p) in
     w'.1 = self ∧ loggerDict w'.2 = loggerDict p ∧ records w'.2 = records p
     ∧ (∀ a, (∃ n, n ∈ names ∧ loggers self !! n = Some a) →
             objects w'.2 !! a = with_level level <$> objects p !! a)
     ∧ (∀ a, (∀ n, n ∈ names → loggers self !! n ≠ Some a) →
             objects w'.2 !! a = objects p !! a)
     ∧ ((∀ n, n ∈ names → loggers self !! n = None) → w' = (self, p)))
  ∧ (let w' := set_level level None (self, p) in
     w'.1 = self ∧ loggerDict w'.2 = loggerDict p ∧ records w'.2 = records p
     ∧ (∀ a, (∃ n, loggers self !! n = Some a) →
             objects w'.2 !! a = with_level level <$> objects p !! a)
     ∧ (∀ a, (∀ n, loggers self !! n ≠ Some a) →
             objects w'.2 !! a = objects p !! a)).
Proof.
  split.
  - intros names. simpl. rewrite set_level_names_omap.
    destruct (setLevel_all level (omap (λ n, loggers self !! n) names) p)
      as (Hdict & Hrec & Hobj).
    split; [done|]. split; [done|]. split; [done|].
    assert (∀ a, a ∈ omap (λ n, loggers self !! n) names
                 ↔ ∃ n, n ∈ names ∧ loggers self !! n = Some a) as Hin.
    { intros a. apply list_elem_of_omap. }
    split; [|split].
    + intros a Ha. rewrite Hobj. by rewrite decide_True by by apply Hin.
    + intros a Ha. rewrite Hobj. rewrite decide_False; [done|].
      rewrite Hin. intros (n & Hn & Hl). by apply (Ha n).
    + intros Hnone. f_equal.
      replace (omap (λ n, loggers self !! n) names) with (@nil nat); [done|].
      symmetry. clear -Hnone. induction names as [|n names IH]; [done|].
      simpl. rewrite Hnone by left. apply IH. intros n' Hn'. apply Hnone. by right.
  - simpl.
    destruct (setLevel_all level (map_to_list (loggers self)).*2 p)
      as (Hdict & Hrec & Hobj).
    split; [done|]. split; [done|]. split; [done|].
    assert (∀ a, a ∈ (map_to_list (loggers self)).*2 ↔ ∃ n, loggers self !! n = Some a)
      as Hin.
    { intros a. rewrite list_elem_of_fmap. split.
      - intros ([n a'] & -> & Hna). exists n. by apply elem_of_map_to_list.
      - intros (n & Hn). exists (n, a). split; [done|]. by apply elem_of_map_to_list. }
    split.
    + intros a Ha. rewrite Hobj. by rewrite decide_True by by apply Hin.
    + intros a Ha. rewrite Hobj. rewrite decide_False; [done|].
      rewrite Hin. intros (n & Hl). by apply (Ha n).
Qed.

(** An instance: an unknown name leaves the default manager as it is, and
    a known one among unknown ones is set. *)
Lemma set_level_spec_witness :
  set_level ERROR (Some ["doesNotExist"]) default_world = default_world
  ∧ level <$> objects (set_level ERROR (Some ["sync"; "doesNotExist"]) default_world).2 !! 3%nat
    = Some ERROR.
Proof.
  destruct (set_level_spec ERROR default_world.1 default_world.2) as (Hnames & _).
  split.
  - destruct (Hnames ["doesNotExist"]) as (_ & _ & _ & _ & _ & Hnone).
    rewrite <- surjective_pairing in Hnone. apply Hnone.
    intros n Hn. apply list_elem_of_singleton in Hn as ->. vm_compute. reflexivity.
  - destruct (Hnames ["sync"; "doesNotExist"]) as (_ & _ & _ & Hset & _).
    rewrite <- surjective_pairing in Hset. rewrite Hset.
    + vm_compute. reflexivity.
    + exists "sync". split; [left|vm_compute; reflexivity].
Defined.

(** C8: [initialize_logging] leaves the global set to the manager it
    returns.  When the global was unset that manager is a newly constructed
    one; when it was set the call returns the existing manager and changes
    nothing.  Any later call, whatever its arguments, returns the same
    manager and changes nothing. *)
Theorem initialize_logging_once log_dir level console file pr :
  let r := initialize_logging log_dir level console file pr in
  _logging_manager r.2 = Some r.1
  ∧ (_logging_manager pr = None →
       (r.1, lib r.2) = LoggingManager.__init__ log_dir level console file 10 5 (lib pr))
  ∧ (∀ self, _logging_manager pr = Some self → r = (self, pr))
  ∧ ∀ log_dir' level' console' file',
      initialize_logging log_dir' level' console' file' r.2 = r.
Proof.
  unfold initialize_logging.
  destruct (_logging_manager pr) as [self|] eqn:Hglobal.
  - simpl. rewrite Hglobal. repeat split; try done. by intros ? [= ->].
  - destruct (LoggingManager.__init__ log_dir level console file 10 5 (lib pr))
      as [self p] eqn:Hinit.
    simpl. repeat split; done.
Qed.

(** An instance: the first call in a new process constructs the default
    manager; a second call with other arguments returns it unchanged. *)
Lemma initialize_logging_once_witness :
  ∃ self pr,
    initialize_logging "logs" INFO true true new_process = (self, pr)
    ∧ (self, lib pr) = default_world
    ∧ initialize_logging "elsewhere" DEBUG false false pr = (self, pr).
Proof.
  destruct (initialize_logging_once "logs" INFO true true new_process)
    as (_ & Hnew & _ & Hagain).
  eexists _, _. split; [apply surjective_pairing|].
  split; [exact (Hnew eq_refl)|]. 
  rewrite (Hagain "elsewhere" DEBUG false false). apply surjective_pairing.
Defined.

(** **** The library invariant *)

Lemma library_ok_update f a p :
  (∀ lg, name (f lg) = name lg ∧ propagate (f lg) = propagate lg) →
  library_ok p → library_ok (update f a p).
Proof.
  intros Hf ((r & Hr & Hrp) & Htable & Hinj). split; [|split].
  - rewrite objects_update. case_decide.
    + exists (f r). rewrite Hr. split; [done|]. by rewrite (proj2 (Hf r)).
    + by exists r.
  - intros n b Hn. destruct (Htable n b Hn) as (Hb & lg & Hlg & Hname & Hprop).
    split; [done|]. rewrite objects_update. case_decide.
    + exists (f lg). rewrite Hlg. destruct (Hf lg) as [-> ->]. done.
    + by exists lg.
  - done.
Qed.

Lemma library_ok_setLevel level a p : library_ok p → library_ok (setLevel level a p).
Proof. by apply library_ok_update. Qed.

Lemma library_ok_addHandler h a p : library_ok p → library_ok (addHandler h a p).
Proof. by apply library_ok_update. Qed.

Lemma library_ok_removeHandlers a p : library_ok p → library_ok (removeHandlers a p).
Proof. by apply library_ok_update. Qed.

Lemma library_ok_log a level message p : library_ok p → library_ok (log a level message p).
Proof. unfold log. by destruct (isEnabledFor a level p). Qed.

Lemma is_special_root : is_special "root" = false ∧ is_special EmptyString = false.
Proof. split; by vm_compute. Qed.

(** What [logging.getLogger] returns in a well formed library. *)
Lemma getLogger_ok name p :
  library_ok p →
  ∃ a lg p',
    getLogger name p = (a, p')
    ∧ library_ok p'
    ∧ objects p' !! a = Some lg
    ∧ (is_special name = false → propagate lg = true)
    ∧ (name ≠ EmptyString → name ≠ "root" → logging.name lg = name ∧ a ≠ root)
    ∧ (∀ n b, loggerDict p' !! n = Some b → b = a → n = name)
    ∧ (length (objects p') ≤ length (objects p) + 1)%nat
    ∧ (∀ b, b ≠ a → objects p' !! b = objects p !! b)
    ∧ (∀ b lg0, objects p !! b = Some lg0 → objects p' !! b = Some lg0)
    ∧ records p' = records p.
Proof.
  intros Hok. pose proof Hok as ((r & Hr & Hrp) & Htable & Hinj).
  unfold getLogger.
  destruct (bool_decide (name = EmptyString) || bool_decide (name = "root")) eqn:Hroot.
  { exists root, r, p. repeat (split; [done|]).
    split.
    { intros Hn1 Hn2. apply orb_true_iff in Hroot as [H|H];
        apply bool_decide_eq_true in H; done. }
    split; [|repeat (split; [done || lia|]); done].
    intros n b Hn ->. by destruct (Htable n root Hn). }
  apply orb_false_iff in Hroot as [Hn1 Hn2].
  apply bool_decide_eq_false in Hn1, Hn2.
  destruct (loggerDict p !! name) as [a|] eqn:Hname.
  - destruct (Htable name a Hname) as (Ha & lg & Hlg & Hnm & Hprop).
    exists a, lg, p. repeat (split; [done|]).
    split; [|repeat (split; [done || lia|]); done].
    intros n b Hn ->. by apply (Hinj n name a).
  - assert (0 < length (objects p))%nat as Hlen by by eapply lookup_lt_Some.
    eexists _, _, _. split; [done|]. simpl.
    assert (∀ b lg0, objects p !! b = Some lg0 →
              (objects p ++ [mkLogger name NOTSET true []]) !! b = Some lg0) as Hold.
    { intros b lg0 Hb. by apply lookup_app_l_Some. }
    split; [|split; [apply list_lookup_middle; done|]].
    + split; [|split]; simpl.
      * exists r. split; [by apply Hold|done].
      * intros n b. rewrite lookup_insert. case_decide as Hnn.
        -- intros [= <-]. subst n. split; [unfold root; lia|].
           eexists. split; [by apply list_lookup_middle|]. done.
        -- intros Hn. destruct (Htable n b Hn) as (Hb & lg & Hlg & Hnm & Hprop).
           split; [done|]. exists lg. split; [by apply Hold|done].
      * intros n1 n2 b. rewrite !lookup_insert.
        case_decide as H1; case_decide as H2.
        -- congruence.
        -- intros [= <-] Hn2'. destruct (Htable n2 _ Hn2') as (_ & lg & Hlg & _).
           apply lookup_lt_Some in Hlg. lia.
        -- intros Hn1' [= <-]. destruct (Htable n1 _ Hn1') as (_ & lg & Hlg & _).
           apply lookup_lt_Some in Hlg. lia.
        -- apply Hinj.
    + simpl. split; [done|]. split; [split; [done|unfold root; lia]|].
      split.
      { intros n b. rewrite lookup_insert. case_decide as Hnn; [done|].
        intros Hn ->. destruct (Htable n _ Hn) as (_ & lg & Hlg & _).
        apply lookup_lt_Some in Hlg. lia. }
      split; [rewrite length_app; simpl; lia|].
      split; [|done].
      intros b Hb. destruct (decide (b < length (objects p))%nat).
      * by apply lookup_app_l.
      * rewrite !lookup_ge_None_2; [done|lia|rewrite length_app; simpl; lia].
Qed.

(** **** The dict of special loggers *)

Lemma special_get_keys key (d : list (string * option nat)) :
  is_Some (special_get key d) ↔ key ∈ d.*1.
Proof.
  induction d as [|[k v] d IH]; simpl.
  - split; [by intros [? ?]|by intros ?%elem_of_nil].
  - rewrite elem_of_cons. case_bool_decide as Hk.
    + split; [by left|by eexists].
    + rewrite IH. split; [by right|]. by intros [->|?].
Qed.

Lemma special_in_keys key (d : list (string * option nat)) :
  d.*1 = special_names → special_in key d = is_special key.
Proof.
  intros Hd. unfold special_in, is_special. apply bool_decide_ext.
  by rewrite special_get_keys, Hd.
Qed.

Lemma special_set_keys key v (d : list (string * option nat)) :
  key ∈ d.*1 → (special_set key v d).*1 = d.*1.
Proof.
  induction d as [|[k v'] d IH]; simpl; [by intros ?%elem_of_nil|].
  rewrite elem_of_cons. case_bool_decide as Hk; [done|].
  intros [->|Hin]; [done|]. csimpl. f_equal. by apply IH.
Qed.

Lemma special_get_set key key' v (d : list (string * option nat)) :
  key' ∈ d.*1 →
  special_get key (special_set key' v d)
  = if decide (key = key') then Some v else special_get key d.
Proof.
  induction d as [|[k v'] d IH]; simpl; [by intros ?%elem_of_nil|].
  rewrite elem_of_cons. intros Hin.
  case_bool_decide as Hk; simpl.
  - subst k. case_bool_decide; case_decide; congruence.
  - destruct Hin as [->|Hin]; [done|].
    case_bool_decide; [case_decide; congruence|by apply IH].
Qed.

Lemma special_get_not_special key (d : list (string * option nat)) :
  d.*1 = special_names → key ∉ special_names → special_get key d = None.
Proof.
  intros Hd Hkey. apply eq_None_not_Some. by rewrite special_get_keys, Hd.
Qed.

(** **** [get_logger] *)

Lemma get_logger_registered name self p a :
  loggers self !! name = Some a → get_logger name (self, p) = (a, (self, p)).
Proof. unfold get_logger. by intros ->. Qed.

Lemma get_logger_unregistered name self p :
  registry_ok (self, p) →
  loggers self !! name = None →
  ∃ a lg p',
    get_logger name (self, p)
    = (a, (set_loggers (<[name := a]> (loggers self)) self, p'))
    ∧ library_ok p'
    ∧ objects p' !! a = Some lg
    ∧ propagate lg = negb (is_special name)
    ∧ (name ≠ EmptyString → name ≠ "root" → logging.name lg = name ∧ a ≠ root)
    ∧ (length (objects p') ≤ length (objects p) + 1)%nat
    ∧ (∀ b, b ≠ a → objects p' !! b = objects p !! b)
    ∧ (∀ b lg0, objects p !! b = Some lg0 →
         ∃ lg1, objects p' !! b = Some lg1
                ∧ logging.name lg1 = logging.name lg0
                ∧ level lg1 = level lg0
                ∧ handlers lg1 = handlers lg0
                ∧ (propagate lg0 = false → propagate lg1 = false))
    ∧ loggerDict p' !! name = (if bool_decide (name = EmptyString) || bool_decide (name = "root")
                               then loggerDict p !! name else Some a)
    ∧ records p' = records p.
Proof.
  intros [Hlib Hkeys] Hname. simpl in Hlib, Hkeys.
  destruct (getLogger_ok name p Hlib)
    as (a & lg & p1 & Hget & Hlib1 & Hlg & Hprop & Hnm & Honly & Hlen & Hother & Hold & Hrec).
  unfold get_logger. rewrite Hname, Hget, (special_in_keys _ _ Hkeys).
  assert (loggerDict p1 !! name
          = if bool_decide (name = EmptyString) || bool_decide (name = "root")
            then loggerDict p !! name else Some a) as Hdict.
  { revert Hget. unfold getLogger.
    destruct (bool_decide (name = EmptyString) || bool_decide (name = "root"));
      [by intros [= <- <-]|].
    destruct (loggerDict p !! name) eqn:Hd; intros [= <- <-]; [done|].
    simpl. by rewrite lookup_insert_eq. }
  destruct (is_special name) eqn:Hsp.
  - exists a, (mkLogger (logging.name lg) (level lg) false (handlers lg)),
      (set_propagate false a p1).
    split; [done|]. split_and!.
    + destruct Hlib1 as ((r & Hr & Hrp) & Htable & Hinj). split; [|split].
      * unfold set_propagate. rewrite objects_update.
        destruct (decide (a = root)) as [Ha|Ha].
        -- exfalso. destruct is_special_root as [Hs1 Hs2].
           destruct Hnm as [_ Hnr]; [intros ->; congruence..|done].
        -- by exists r.
      * intros n b Hn. destruct (Htable n b Hn) as (Hb & lg' & Hlg' & Hnm' & Hprop').
        split; [done|]. unfold set_propagate. rewrite objects_update.
        destruct (decide (a = b)) as [Hab|Hab].
        -- subst b. rewrite Hlg'. eexists. split; [done|]. split; [done|].
           rewrite (Honly n a Hn eq_refl). congruence.
        -- by exists lg'.
      * done.
    + unfold set_propagate. rewrite objects_update, decide_True by done.
      by rewrite Hlg.
    + done.
    + intros H1 H2. by apply Hnm.
    + unfold set_propagate. simpl. by rewrite length_alter.
    + intros b Hb. unfold set_propagate. rewrite objects_update.
      rewrite decide_False by done. by apply Hother.
    + intros b lg0 Hb. unfold set_propagate. rewrite objects_update.
      rewrite (Hold b lg0 Hb). destruct (decide (a = b)); eexists; (split; [done|]); done.
    + done.
    + done.
  - exists a, lg, p1. split; [done|]. split; [done|]. split; [done|].
    split; [by apply Hprop|]. split; [done|]. split; [done|]. split; [done|].
    split; [|done]. intros b lg0 Hb. exists lg0. by rewrite (Hold b lg0 Hb).
Qed.

Lemma get_logger_again name w :
  loggers (get_logger name w).2.1 !! name = Some (get_logger name w).1.
Proof.
  destruct w as [self p]. unfold get_logger.
  destruct (loggers self !! name) as [a|] eqn:Hname; [done|].
  destruct (getLogger name p) as [a p1]. simpl. by rewrite lookup_insert_eq.
Qed.

Lemma get_logger_times_registered n name w a :
  loggers w.1 !! name = Some a →
  get_logger_times n name w = (replicate n a, w).
Proof.
  intros Hname. destruct w as [self p]. simpl in Hname.
  induction n as [|n IH]; cbn [get_logger_times]; [done|].
  rewrite (get_logger_registered _ _ _ _ Hname). cbv beta iota zeta.
  by rewrite IH.
Qed.

(** **** The constructor *)

Lemma library_ok_fresh : library_ok fresh.
Proof.
  split; [|split].
  - by eexists.
  - intros n a Hn. by destruct (lookup_empty_Some (M:=gmap string) n a).
  - intros n1 n2 a Hn. by destruct (lookup_empty_Some (M:=gmap string) n1 a).
Qed.

Lemma configure_root_logger_ok self p :
  registry_ok (self, p) →
  registry_ok (_configure_root_logger (self, p))
  ∧ (_configure_root_logger (self, p)).1 = set_loggers (<["root" := root]> (loggers self)) self
  ∧ records (_configure_root_logger (self, p)).2 = records p.
Proof.
  intros [Hlib Hkeys]. unfold _configure_root_logger. simpl in *.
  split; [|split; [done|]].
  - split; simpl; [|done].
    destruct (enable_file self), (enable_console self);
      repeat first [apply library_ok_addHandler | apply library_ok_setLevel
                   | apply library_ok_removeHandlers]; done.
  - by destruct (enable_file self), (enable_console self).
Qed.

Lemma initialize_special_logger_ok w c :
  registry_ok w → c ∈ special_names → loggers w.1 !! c = None →
  registry_ok (initialize_special_logger w c)
  ∧ config (initialize_special_logger w c).1 = config w.1
  ∧ rate_limiters (initialize_special_logger w c).1 = rate_limiters w.1
  ∧ records (initialize_special_logger w c).2 = records w.2
  ∧ (∃ a, loggers (initialize_special_logger w c).1 = <[c := a]> (loggers w.1))
  ∧ special_ready (initialize_special_logger w c) c
  ∧ (∀ c0, c0 ≠ c → special_ready w c0 →
          special_ready (initialize_special_logger w c) c0).
Proof.
  destruct w as [self p]. intros Hok Hc Hname. simpl in Hname.
  pose proof Hok as [_ Hkeys]. simpl in Hkeys.
  assert (c ∈ (special_loggers self).*1) as Hckey by by rewrite Hkeys.
  assert (is_special c = true) as Hsp by by apply bool_decide_eq_true.
  assert (c ≠ EmptyString ∧ c ≠ "root") as [Hc1 Hc2].
  { destruct is_special_root. split; intros ->; congruence. }
  destruct (get_logger_unregistered c self p Hok Hname)
    as (a & lg & p' & Hget & Hlib' & Hlg & Hprop & Hnm & Hlen & Hother & Hold & Hdict & Hrec).
  destruct (Hnm Hc1 Hc2) as [Hlgname Har].
  rewrite Hsp in Hprop. simpl in Hprop.
  unfold initialize_special_logger. rewrite Hget. cbn [enable_file set_loggers].
  set (h := RotatingFileHandler _ _ _ _).
  split_and!.
  - split; simpl.
    + destruct (enable_file self); [by apply library_ok_addHandler|done].
    + rewrite special_set_keys; done.
  - done.
  - done.
  - simpl. by destruct (enable_file self).
  - by exists a.
  - exists a. unfold special_ready.
    destruct (enable_file self) eqn:Hfile;
      cbn [fst snd special_loggers set_special_loggers loggers set_loggers enable_file].
    + eexists. rewrite special_get_set, decide_True by done.
      rewrite lookup_insert_eq. unfold addHandler. rewrite objects_update.
      rewrite decide_True by done. rewrite Hlg. simpl.
      split_and!; try done. intros _. apply elem_of_app. right. by left.
    + exists lg. rewrite special_get_set, decide_True by done.
      rewrite lookup_insert_eq. split_and!; try done. intros ?; congruence.
  - intros c0 Hc0 (a0 & lg0 & Hsp0 & Hreg0 & Hobj0 & Hname0 & Hprop0 & Hh0).
    simpl in Hsp0, Hreg0, Hobj0, Hh0.
    destruct (Hold a0 lg0 Hobj0) as (lg1 & Hobj1 & Hn1 & _ & Hh1 & Hp1).
    exists a0.
    cbn [fst snd special_loggers set_special_loggers loggers set_loggers enable_file].
    rewrite special_get_set, decide_False by done.
    rewrite lookup_insert_ne by done.
    assert (enable_file self = true → special_file_handler (self, p).1 c0 ∈ handlers lg1)
      as Hh1'.
    { intros Hf. rewrite Hh1. by apply Hh0. }
    destruct (enable_file self) eqn:Hfile.
    + unfold addHandler. rewrite objects_update.
      destruct (decide (a = a0)) as [->|Hne].
      * rewrite Hobj1. eexists. simpl.
        split_and!; try done; try congruence; try (by auto).
        all: try (intros _; apply elem_of_app; left; by apply Hh1').
      * exists lg1. split_and!; try done; try congruence; by auto.
    + exists lg1. split_and!; try done; try congruence; try (by auto).
Qed.

Lemma initialize_special_loggers_fold (cs : list string) : ∀ w,
  NoDup cs → (∀ c, c ∈ cs → c ∈ special_names) →
  registry_ok w → (∀ c, c ∈ cs → loggers w.1 !! c = None) →
  registry_ok (foldl initialize_special_logger w cs)
  ∧ config (foldl initialize_special_logger w cs).1 = config w.1
  ∧ rate_limiters (foldl initialize_special_logger w cs).1 = rate_limiters w.1
  ∧ records (foldl initialize_special_logger w cs).2 = records w.2
  ∧ (∀ c, c ∈ cs → special_ready (foldl initialize_special_logger w cs) c)
  ∧ (∀ c, c ∉ cs → special_ready w c →
          special_ready (foldl initialize_special_logger w cs) c)
  ∧ (∀ n, n ∉ cs → loggers (foldl initialize_special_logger w cs).1 !! n = loggers w.1 !! n)
  ∧ (∀ n, n ∈ cs → is_Some (loggers (foldl initialize_special_logger w cs).1 !! n)).
Proof.
  induction cs as [|c cs IH]; intros w Hnd Hsub Hok Hnew; cbn [foldl].
  - split_and!; try done; intros ? ?%elem_of_nil; done.
  - apply NoDup_cons in Hnd as [Hc Hnd].
    destruct (initialize_special_logger_ok w c Hok)
      as (Hok1 & Hcfg1 & Hrl1 & Hrec1 & [a Hlog1] & Hready1 & Hkeep1).
    { apply Hsub. by left. }
    { apply Hnew. by left. }
    destruct (IH (initialize_special_logger w c) Hnd) as
      (Hok' & Hcfg' & Hrl' & Hrec' & Hready' & Hkeep' & Hout' & Hin'); [| done |..].
    { intros c' Hc'. apply Hsub. by right. }
    { intros c' Hc'. rewrite Hlog1, lookup_insert_ne by (intros ->; done).
      apply Hnew. by right. }
    split_and!; try congruence.
    + intros c0 [->|Hc0]%elem_of_cons; [by apply Hkeep'|by apply Hready'].
    + intros c0 [Hne Hc0]%not_elem_of_cons Hr. apply Hkeep'; [done|].
      by apply Hkeep1.
    + intros n [Hne Hn]%not_elem_of_cons. rewrite Hout' by done.
      by rewrite Hlog1, lookup_insert_ne.
    + intros n [->|Hn]%elem_of_cons; [|by apply Hin'].
      rewrite Hout' by done. rewrite Hlog1, lookup_insert_eq. by eexists.
Qed.

Lemma root_not_special : "root" ∉ special_names.
Proof. apply (bool_decide_eq_false_1 _), is_special_root. Qed.

Lemma NoDup_special_names : NoDup special_names.
Proof. apply (bool_decide_unpack _). by vm_compute. Qed.

(** The world the constructor leaves behind. *)
Lemma manager_init_ok log_dir level console file mb backups p :
  library_ok p →
  manager_ok (__init__ log_dir level console file mb backups p)
  ∧ (∀ c, c ∈ special_names →
          special_ready (__init__ log_dir level console file mb backups p) c)
  ∧ (∀ n, is_Some (loggers (__init__ log_dir level console file mb backups p).1 !! n)
          ↔ n = "root" ∨ n ∈ special_names)
  ∧ (∃ f1 f2, config (__init__ log_dir level console file mb backups p).1
              = (log_dir, level, console, file, mb, backups, f1, f2))
  ∧ rate_limiters (__init__ log_dir level console file mb backups p).1 = ∅
  ∧ records (__init__ log_dir level console file mb backups p).2 = records p.
Proof.
  intros Hlib. unfold __init__, _initialize_special_loggers.
  set (self0 := mk _ _ _ _ _ _ _ _ _ _ _).
  assert (registry_ok (self0, p)) as Hok0 by done.
  destruct (configure_root_logger_ok self0 p Hok0) as (Hok1 & Hself1 & Hrec1).
  set (w1 := _configure_root_logger (self0, p)) in *.
  assert ((special_loggers w1.1).*1 = special_names) as -> by by rewrite Hself1.
  assert (∀ n, loggers w1.1 !! n = if decide (n = "root") then Some root else None) as Hlog1.
  { intros n. rewrite Hself1. simpl. rewrite lookup_insert.
    destruct (decide ("root" = n)), (decide (n = "root")); congruence || done. }
  destruct (initialize_special_loggers_fold special_names w1 NoDup_special_names)
    as (Hok' & Hcfg' & Hrl' & Hrec' & Hready' & _ & Hout' & Hin'); [done..| |].
  { intros c Hc. rewrite Hlog1. rewrite decide_False; [done|].
    intros ->. by apply root_not_special. }
  split_and!.
  - split; [done|]. split.
    + rewrite Hout', Hlog1; [done|apply root_not_special].
    + intros c Hc. destruct (Hready' c Hc) as (a & lg & ? & ? & ? & _). by exists a, lg.
  - done.
  - intros n. destruct (decide (n ∈ special_names)) as [Hn|Hn].
    + split; [by right|]. intros _. by apply Hin'.
    + rewrite Hout', Hlog1 by done. case_decide.
      * split; [by left|]. intros _. by eexists.
      * split; [by intros [? ?]|]. by intros [?|?].
  - rewrite Hcfg', Hself1. by eexists _, _.
  - by rewrite Hrl', Hself1.
  - by rewrite Hrec', Hrec1.
Qed.

(** C7: constructed in a well formed process, the manager has registered
    the root logger and exactly the five special categories; each special
    category has, in both of the manager's dicts, a logger of its own name
    that does not propagate and, when file output is enabled, carries a
    rotating-file handler on [os.path.join(log_dir, category + ".log")]
    with [max_file_size_mb * 1024 * 1024] bytes and [backup_count]
    backups. *)
Theorem init_special_channels log_dir level console file mb backups p :
  library_ok p →
  (∀ n, is_Some (loggers (__init__ log_dir level console file mb backups p).1 !! n)
        ↔ n = "root" ∨ n ∈ special_names)
  ∧ ∀ c, c ∈ special_names →
      ∃ a lg,
        special_get c (special_loggers (__init__ log_dir level console file mb backups p).1)
        = Some (Some a)
        ∧ loggers (__init__ log_dir level console file mb backups p).1 !! c = Some a
        ∧ objects (__init__ log_dir level console file mb backups p).2 !! a = Some lg
        ∧ name lg = c
        ∧ propagate lg = false
        ∧ (file = true →
             RotatingFileHandler (os_path_join log_dir (c +:+ ".log"))
               (mb * 1024 * 1024) backups
               (detailed_format (__init__ log_dir level console file mb backups p).1)
             ∈ handlers lg).
Proof.
  intros Hlib.
  destruct (manager_init_ok log_dir level console file mb backups p Hlib)
    as (_ & Hready & Hdom & (f1 & f2 & Hcfg) & _).
  split; [done|]. intros c Hc.
  destruct (Hready c Hc) as (a & lg & H1 & H2 & H3 & H4 & H5 & H6).
  exists a, lg. split_and!; try done.
  intros ->.
  injection Hcfg as Hdir _ _ Hfile Hmb Hback _ _.
  unfold special_file_handler in H6.
  rewrite Hdir, Hmb, Hback in H6. by apply H6.
Qed.

(** **** The invariant of a constructed manager *)

Lemma setLevel_all_library_ok level (addrs : list nat) : ∀ p,
  library_ok p → library_ok (foldl (λ p a, setLevel level a p) p addrs).
Proof.
  induction addrs as [|a addrs IH]; intros p Hp; cbn [foldl]; [done|].
  by apply IH, library_ok_setLevel.
Qed.

Lemma manager_ok_frame self self' p p' :
  manager_ok (self, p) →
  library_ok p' →
  special_loggers self' = special_loggers self →
  loggers self' !! "root" = Some root →
  (∀ a lg, objects p !! a = Some lg → is_Some (objects p' !! a)) →
  manager_ok (self', p').
Proof.
  intros ([_ Hkeys] & Hroot & Hsp) Hlib Hspecial Hroot' Hlive. simpl in *.
  split; [split|split]; simpl; [done|by rewrite Hspecial|done|].
  intros c Hc. destruct (Hsp c Hc) as (a & lg & Hget & Hlg).
  destruct (Hlive a lg Hlg) as [lg' Hlg']. exists a, lg'. by rewrite Hspecial.
Qed.

Lemma get_logger_manager_ok name w : manager_ok w → manager_ok (get_logger name w).2.
Proof.
  destruct w as [self p]. intros Hok. pose proof Hok as (Hreg & Hroot & _).
  simpl in Hroot.
  destruct (loggers self !! name) as [a|] eqn:Hname.
  - by rewrite (get_logger_registered _ _ _ _ Hname).
  - destruct (get_logger_unregistered name self p Hreg Hname)
      as (a & lg & p' & -> & Hlib & _ & _ & _ & _ & _ & Hold & _).
    apply (manager_ok_frame self _ p); simpl; try done.
    + rewrite lookup_insert_ne; [done|]. intros ->. congruence.
    + intros b lg0 Hb. destruct (Hold b lg0 Hb) as (lg1 & -> & _). by eexists.
Qed.

Lemma set_level_manager_ok level names w : manager_ok w → manager_ok (set_level level names w).
Proof.
  destruct w as [self p]. intros Hok. pose proof Hok as ([Hlib _] & Hroot & _).
  simpl in Hlib, Hroot.
  assert (∀ addrs, manager_ok (self, foldl (λ p a, setLevel level a p) p addrs)) as Hfold.
  { intros addrs. apply (manager_ok_frame self _ p); try done.
    - by apply setLevel_all_library_ok.
    - intros a lg Hlg. destruct (setLevel_all level addrs p) as (_ & _ & ->).
      rewrite Hlg. case_decide; simpl; by eexists. }
  destruct names as [names|]; simpl.
  - rewrite set_level_names_omap. apply Hfold.
  - apply Hfold.
Qed.

Lemma toggle_special_logger_manager_ok category enable w w' :
  manager_ok w → toggle_special_logger category enable w = Some w' → manager_ok w'.
Proof.
  destruct w as [self p]. intros Hok. pose proof Hok as ([Hlib _] & Hroot & _).
  simpl in Hlib, Hroot. unfold toggle_special_logger. rewrite Hroot.
  destruct (special_get category (special_loggers self)) as [[a|]|];
    intros [= <-]; try done.
  apply (manager_ok_frame self _ p); try done.
  - by apply library_ok_log, library_ok_setLevel.
  - intros b lg Hlg. rewrite (proj1 (log_frame _ _ _ _)).
    rewrite objects_setLevel, Hlg. case_decide; simpl; by eexists.
Qed.

Lemma rate_limited_log_manager_ok logger level message limit now w o w' :
  manager_ok w →
  rate_limited_log logger level message limit now w = Some (o, w') → manager_ok w'.
Proof.
  destruct w as [self p]. intros Hok. pose proof Hok as ([Hlib _] & Hroot & _).
  simpl in Hlib, Hroot. unfold rate_limited_log.
  destruct (objects p !! logger) as [lg|]; [|done].
  destruct (rate_limiters self !! _).
  - destruct (PrimFloat.eqb limit 0); [by intros [= _ <-]|].
    destruct (PrimFloat.leb _ _); intros [= _ <-]; [|done].
    apply (manager_ok_frame self _ p); try done; [by apply library_ok_log|].
    intros a lg0 Hlg0. rewrite (proj1 (log_frame _ _ _ _)). by eexists.
  - intros [= _ <-]. apply (manager_ok_frame self _ p); try done; [by apply library_ok_log|].
    intros a lg0 Hlg0. rewrite (proj1 (log_frame _ _ _ _)). by eexists.
Qed.

(** Every world a program can bring about satisfies the invariant. *)
Lemma reachable_ok w : reachable w → manager_ok w.
Proof.
  induction 1 as [log_dir level console file mb backups p Hp| | | |].
  - by apply manager_init_ok.
  - by apply get_logger_manager_ok.
  - by apply set_level_manager_ok.
  - by eapply toggle_special_logger_manager_ok.
  - by eapply rate_limited_log_manager_ok.
Qed.

(** An instance: the sensor channel of the default manager. *)
Lemma init_special_channels_witness :
  ∃ a lg,
    loggers default_world.1 !! "sensor" = Some a
    ∧ objects default_world.2 !! a = Some lg
    ∧ name lg = "sensor"
    ∧ propagate lg = false
    ∧ RotatingFileHandler "logs/sensor.log" (10 * 1024 * 1024) 5
        (detailed_format default_world.1) ∈ handlers lg.
Proof.
  destruct (init_special_channels "logs" INFO true true 10 5 fresh library_ok_fresh)
    as (_ & Hready).
  destruct (Hready "sensor") as (a & lg & _ & Hreg & Hlg & Hname & Hprop & Hfile).
  { right. left. }
  exists a, lg. split; [exact Hreg|]. split; [exact Hlg|]. split; [exact Hname|].
  split; [exact Hprop|]. exact (Hfile eq_refl).
Defined.

End Manager.

(** *** More on the overlay *)

Section WindowMore.
Implicit Types (w : LogWindow.t) (rs : list LogWindow.record).

Lemma step_fixed_fields w o :
  LogWindow.window_size (LogWindow.step w o) = LogWindow.window_size w
  ∧ LogWindow.line_height (LogWindow.step w o) = LogWindow.line_height w
  ∧ LogWindow.category_colors (LogWindow.step w o) = LogWindow.category_colors w.
Proof. by destruct o. Qed.

Lemma run_fixed_fields ops : ∀ w,
  LogWindow.window_size (LogWindow.run ops w) = LogWindow.window_size w
  ∧ LogWindow.line_height (LogWindow.run ops w) = LogWindow.line_height w
  ∧ LogWindow.category_colors (LogWindow.run ops w) = LogWindow.category_colors w.
Proof.
  unfold LogWindow.run. induction ops as [|o ops IH]; intros w; cbn [foldl]; [done|].
  destruct (IH (LogWindow.step w o)) as (-> & -> & ->). apply step_fixed_fields.
Qed.

(** The fields the constructor fixes, in a window that has been used. *)
Lemma constructed_fields name size cap ok t1 t2 t3 t4 rep w0 ops :
  LogWindow.__init__ name size cap ok t1 t2 t3 t4 = Some (rep, w0) →
  LogWindow.window_size (LogWindow.run ops w0) = size
  ∧ LogWindow.line_height (LogWindow.run ops w0) = 20
  ∧ LogWindow.category_colors (LogWindow.run ops w0) = LogWindow.default_colors.
Proof.
  intros Hinit. destruct (run_fixed_fields ops w0) as (-> & -> & ->).
  revert Hinit. unfold LogWindow.__init__.
  destruct (cap <? 0); [done|]. by intros [= _ <-].
Qed.

(** [render] on any canvas of non-negative size with 20-pixel lines. *)
Lemma render_take_rows w width height :
  LogWindow.window_size w = (width, height) →
  LogWindow.line_height w = 20 →
  0 ≤ width → 0 ≤ height →
  LogWindow.render w
  = LogWindow.Frame
      (draw_rows w 20
         (take (rows_drawn height)
            (most_recent (Z.to_nat (height / 20)) (LogWindow.log_lines w))))
      true.
Proof.
  intros Hsize Hlh Hwidth Hheight. unfold LogWindow.render.
  rewrite Hsize, Hlh.
  destruct (Z.ltb_spec height 0); [lia|].
  destruct (Z.ltb_spec width 0); [lia|]. simpl orb. cbv iota.
  assert (0 ≤ height / 20) as HV by (apply Z.div_pos; lia).
  replace (Z.to_nat (Z.max 0 (Z.of_nat (length (LogWindow.log_lines w))
             - Z.min (height / 20) (Z.of_nat (length (LogWindow.log_lines w))))))
    with (length (LogWindow.log_lines w) - Z.to_nat (height / 20))%nat by lia.
  f_equal. unfold most_recent.
  pose proof (Z.div_mod (height - 11) 20 ltac:(lia)) as Hdm.
  pose proof (Z.mod_pos_bound (height - 11) 20 ltac:(lia)) as Hmod.
  apply draw_loop_break; rewrite ?Hsize, ?Hlh; simpl snd; unfold rows_drawn.
  - lia.
  - intros j Hj. lia.
  - lia.
Qed.

(** X1: a window built by the constructor on a canvas of non-negative
    size, however it has been used since, is rendered as follows: of the
    [height // 20] most recent records, the oldest
    [max(1, (height - 11) // 20)] are drawn, oldest first, one row of three
    texts each at y = 20, 40, ..., and the canvas is presented. *)
Theorem render_rows name width height cap ok t1 t2 t3 t4 rep w0 ops :
  LogWindow.__init__ name (width, height) cap ok t1 t2 t3 t4 = Some (rep, w0) →
  0 ≤ width → 0 ≤ height →
  LogWindow.render (LogWindow.run ops w0)
  = LogWindow.Frame
      (draw_rows (LogWindow.run ops w0) 20
         (take (rows_drawn height)
            (most_recent (Z.to_nat (height / 20))
               (LogWindow.log_lines (LogWindow.run ops w0)))))
      true.
Proof.
  intros Hinit Hwidth Hheight.
  destruct (constructed_fields _ _ _ _ _ _ _ _ _ _ ops Hinit) as (Hsize & Hlh & _).
  by apply (render_take_rows _ width height).
Qed.

(** An instance: the default window with 31 records shows 29 of them. *)
Lemma render_rows_witness :
  ∃ w0 : LogWindow.t,
    default_window = Some w0
    ∧ length (LogWindow.drawn
                (LogWindow.render
                   (LogWindow.run
                      (map (λ r : LogWindow.record, LogWindow.AddLog r.1.1 r.1.2 r.2) readings)
                      w0)))
      = 87%nat.
Proof.
  eexists. split; [reflexivity|].
  erewrite (render_rows "System Logs" 1000 600 100 true); [|reflexivity|lia|lia].
  vm_compute. reflexivity.
Defined.

(** X2: while the buffer of a constructed window holds no more records
    than rows are reached, on a canvas at least one line high, [render]
    draws every record, oldest first. *)
Theorem render_shows_all name width height cap ok t1 t2 t3 t4 rep w0 ops :
  LogWindow.__init__ name (width, height) cap ok t1 t2 t3 t4 = Some (rep, w0) →
  0 ≤ width → 20 ≤ height →
  (length (LogWindow.log_lines (LogWindow.run ops w0)) ≤ rows_drawn height)%nat →
  LogWindow.render (LogWindow.run ops w0)
  = LogWindow.Frame
      (draw_rows (LogWindow.run ops w0) 20 (LogWindow.log_lines (LogWindow.run ops w0))) true.
Proof.
  intros Hinit Hwidth Hheight Hfew.
  destruct (constructed_fields _ _ _ _ _ _ _ _ _ _ ops Hinit) as (Hsize & Hlh & _).
  rewrite (render_take_rows _ width height) by (done || lia).
  f_equal. f_equal.
  assert (rows_drawn height ≤ Z.to_nat (height / 20))%nat as HKV.
  { unfold rows_drawn.
    pose proof (Z.div_le_mono (height - 11) height 20 ltac:(lia) ltac:(lia)).
    assert (1 ≤ height / 20) by (apply Z.div_le_lower_bound; lia). lia. }
  unfold most_recent.
  replace (length (LogWindow.log_lines (LogWindow.run ops w0)) - Z.to_nat (height / 20))%nat
    with 0%nat by lia.
  rewrite drop_0. by apply take_ge.
Qed.

(** An instance: the four welcome records of the default window. *)
Lemma render_shows_all_witness :
  ∃ w0 : LogWindow.t,
    default_window = Some w0
    ∧ LogWindow.render w0
      = LogWindow.Frame (draw_rows w0 20 (welcome "12:00:00" "12:00:00" "12:00:00" "12:00:00"))
          true.
Proof.
  eexists. split; [reflexivity|].
  refine (render_shows_all "System Logs" 1000 600 100 true "12:00:00" "12:00:00" "12:00:00"
            "12:00:00" LogWindow.WindowCreated _ [] eq_refl _ _ _); [lia|lia|].
  vm_compute. lia.
Defined.

(** X3: on a canvas lower than one line a constructed window is rendered
    without any text, whatever its buffer holds; the canvas is presented
    exactly when neither dimension is negative. *)
Theorem render_low_canvas name width height cap ok t1 t2 t3 t4 rep w0 ops :
  LogWindow.__init__ name (width, height) cap ok t1 t2 t3 t4 = Some (rep, w0) →
  height < 20 →
  LogWindow.render (LogWindow.run ops w0)
  = LogWindow.Frame [] (bool_decide (0 ≤ width ∧ 0 ≤ height)).
Proof.
  intros Hinit Hheight.
  destruct (constructed_fields _ _ _ _ _ _ _ _ _ _ ops Hinit) as (Hsize & Hlh & _).
  destruct (decide (0 ≤ width ∧ 0 ≤ height)) as [[Hw Hh]|Hneg].
  - rewrite (render_take_rows _ width height) by done.
    rewrite Z.div_small by lia. rewrite bool_decide_eq_true_2 by done.
    unfold most_recent. rewrite Nat.sub_0_r, drop_all, take_nil. done.
  - rewrite bool_decide_eq_false_2 by done.
    unfold LogWindow.render. rewrite Hsize.
    destruct (Z.ltb_spec height 0), (Z.ltb_spec width 0); try done. lia.
Qed.

(** An instance: a canvas 19 pixels high. *)
Lemma render_low_canvas_witness :
  ∃ w0 : LogWindow.t,
    snd <$> LogWindow.__init__ "System Logs" (1000, 19) 100 true "a" "b" "c" "d" = Some w0
    ∧ length (LogWindow.log_lines w0) = 4%nat
    ∧ LogWindow.render w0 = LogWindow.Frame [] true.
Proof.
  eexists. split; [reflexivity|]. split; [reflexivity|].
  refine (render_low_canvas "System Logs" 1000 19 100 true "a" "b" "c" "d"
            LogWindow.WindowCreated _ [] eq_refl _). lia.
Defined.

(** X4: as long as the records fit, [add_log] evicts nothing: the buffer
    of a constructed window grows by exactly the records added, in
    order. *)
Theorem add_logs_below_capacity name size cap ok t1 t2 t3 t4 rep w0 ops rs :
  LogWindow.__init__ name size cap ok t1 t2 t3 t4 = Some (rep, w0) →
  Z.of_nat (length (LogWindow.log_lines (LogWindow.run ops w0)) + length rs) ≤ cap →
  LogWindow.log_lines (LogWindow.add_logs rs (LogWindow.run ops w0))
  = LogWindow.log_lines (LogWindow.run ops w0) ++ rs.
Proof.
  intros Hinit Hfit.
  destruct (window_init_ok _ _ _ _ _ _ _ _ _ _ Hinit) as [Hw0 Hcap].
  destruct (run_ok ops w0 Hw0) as [Hw Hcap'].
  rewrite log_lines_add_logs by done. rewrite Hcap', Hcap.
  unfold most_recent. rewrite length_app.
  replace (_ + _ - _)%nat with 0%nat by lia. apply drop_0.
Qed.

(** An instance: two records added to the default window. *)
Lemma add_logs_below_capacity_witness :
  ∃ w0 : LogWindow.t,
    default_window = Some w0
    ∧ LogWindow.log_lines
        (LogWindow.add_logs [("a", "sync", "one"); ("b", "sync", "two")] w0)
      = LogWindow.log_lines w0 ++ [("a", "sync", "one"); ("b", "sync", "two")].
Proof.
  eexists. split; [reflexivity|].
  refine (add_logs_below_capacity "System Logs" (1000, 600) 100 true "12:00:00" "12:00:00"
            "12:00:00" "12:00:00" LogWindow.WindowCreated _ [] _ eq_refl _).
  vm_compute. discriminate.
Defined.

(** X5: in a constructed window a record whose category is not one of
    "system", "sensors", "sync", "control" and "performance" is drawn
    with its category in the default colour (200, 200, 200). *)
Theorem draw_line_unknown_category name size cap ok t1 t2 t3 t4 rep w0 ops y ts c m :
  LogWindow.__init__ name size cap ok t1 t2 t3 t4 = Some (rep, w0) →
  c ∉ colour_names →
  LogWindow.draw_line (LogWindow.run ops w0) y (ts, c, m)
  = [ LogWindow.PutText ts (10, y) (150, 150, 150);
      LogWindow.PutText ("[" +:+ LogWindow.upper c +:+ "]") (100, y) (200, 200, 200);
      LogWindow.PutText m (240, y) (220, 220, 220) ].
Proof.
  intros Hinit Hc.
  destruct (constructed_fields _ _ _ _ _ _ _ _ _ _ ops Hinit) as (_ & _ & Hcol).
  unfold LogWindow.draw_line. rewrite Hcol.
  assert (LogWindow.default_colors !! c = None) as ->; [|done].
  unfold LogWindow.default_colors, colour_names in *.
  rewrite !not_elem_of_cons in Hc. destruct Hc as (? & ? & ? & ? & ? & _).
  rewrite !lookup_insert_ne by done. apply lookup_empty.
Qed.

(** An instance: the manager's category "sensor" has no colour of its
    own (the table has "sensors"). *)
Lemma draw_line_unknown_category_witness :
  ∃ w0 : LogWindow.t,
    default_window = Some w0
    ∧ LogWindow.text_color <$> LogWindow.draw_line w0 20 ("12:00:00", "sensor", "ok") !! 1%nat
      = Some (200, 200, 200).
Proof.
  eexists. split; [reflexivity|].
  refine (f_equal (λ l, LogWindow.text_color <$> l !! 1%nat)
            (draw_line_unknown_category "System Logs" (1000, 600) 100 true "12:00:00"
               "12:00:00" "12:00:00" "12:00:00" LogWindow.WindowCreated _ [] 20
               "12:00:00" "sensor" "ok" eq_refl _)).
  apply (bool_decide_eq_false_1 _). vm_compute. reflexivity.
Defined.

End WindowMore.

(** *** More on the rate limiter *)

Section RateLimiterMore.
Import logging LoggingManager.

(** A call that does not emit leaves the world as it is. *)
Lemma rate_limited_log_held logger lg level message limit now self p last :
  objects p !! logger = Some lg →
  rate_limiters self !! limiter_key (name lg) level = Some last →
  interval_elapsed limit now last = false →
  ∃ o, rate_limited_log logger level message limit now (self, p) = Some (o, (self, p))
       ∧ o ≠ Emitted
       ∧ (PrimFloat.eqb limit 0 = true → o = ZeroDivisionError).
Proof.
  intros Hlg Hkey Hcond. unfold rate_limited_log. rewrite Hlg.
  fold (limiter_key (name lg) level). rewrite Hkey.
  destruct (PrimFloat.eqb limit 0) eqn:Hzero; [by eexists|].
  rewrite <- (interval_elapsed_nonzero limit now last), Hcond by done.
  by eexists.
Qed.

Lemma run_calls_zero_limit logger lg level limit self p last
    (calls : list (string * float)) :
  objects p !! logger = Some lg →
  rate_limiters self !! limiter_key (name lg) level = Some last →
  PrimFloat.eqb limit 0 = true →
  run_calls (map (λ mt, Call logger level mt.1 limit mt.2) calls) (self, p)
  = Some (replicate (length calls) ZeroDivisionError).
Proof.
  intros Hlg Hkey Hzero. induction calls as [|[m t] calls IH]; [done|].
  cbn [map run_calls call_logger call_level call_message call_limit call_time fst snd].
  destruct (rate_limited_log_held logger lg level m limit t self p last Hlg Hkey)
    as (o & -> & _ & Ho); [by apply interval_elapsed_zero|].
  rewrite IH, (Ho Hzero). done.
Qed.

(** X6: with [limit_per_second = 0] (or [-0.0]) the first call for a
    (channel name, level) pair emits, and each later call for the pair,
    at whatever time, raises [ZeroDivisionError]. *)
Theorem zero_limit_raises logger lg level limit self p m0 t0
    (calls : list (string * float)) :
  objects p !! logger = Some lg →
  rate_limiters self !! limiter_key (name lg) level = None →
  PrimFloat.eqb limit 0 = true →
  run_calls (Call logger level m0 limit t0
             :: map (λ mt, Call logger level mt.1 limit mt.2) calls) (self, p)
  = Some (Emitted :: replicate (length calls) ZeroDivisionError).
Proof.
  intros Hlg Hkey Hzero.
  cbn [run_calls call_logger call_level call_message call_limit call_time].
  unfold rate_limited_log at 1. rewrite Hlg.
  fold (limiter_key (name lg) level). rewrite Hkey.
  rewrite (run_calls_zero_limit logger lg level limit _ _ t0);
    [done|by rewrite (proj1 (log_frame _ _ _ _))| |done].
  simpl. apply lookup_insert_eq.
Qed.

(** An instance: three calls on the root logger of the default manager. *)
Lemma zero_limit_raises_witness :
  run_calls [Call root INFO "a" 0 100; Call root INFO "b" 0 200; Call root INFO "c" 0 300]
    default_world
  = Some [Emitted; ZeroDivisionError; ZeroDivisionError].
Proof.
  assert (∃ lg, objects default_world.2 !! root = Some lg) as [lg Hlg].
  { eexists. vm_compute. reflexivity. }
  rewrite (surjective_pairing default_world).
  refine (zero_limit_raises root lg INFO 0 _ _ "a" 100 [("b", 200%float); ("c", 300%float)]
            Hlg _ eq_refl).
  revert Hlg. vm_compute. intros [= <-]. reflexivity.
Defined.

(** X7: calls that come too early after an accepted one do not postpone
    the next emission.  After a call accepted at [t0], a run of calls for
    the same pair that each fail the comparison against [t0] emits
    nothing, and the next call that passes the comparison against [t0]
    emits, however close it comes to the calls before it. *)
Theorem early_calls_do_not_postpone logger lg level self p t0 (early : list call) c :
  objects p !! logger = Some lg →
  rate_limiters self !! limiter_key (name lg) level = Some t0 →
  Forall (λ e, call_logger e = logger ∧ call_level e = level
               ∧ interval_elapsed (call_limit e) (call_time e) t0 = false) early →
  call_logger c = logger → call_level c = level →
  interval_elapsed (call_limit c) (call_time c) t0 = true →
  ∃ os, run_calls (early ++ [c]) (self, p) = Some (os ++ [Emitted])
        ∧ length os = length early
        ∧ Forall (λ o, o ≠ Emitted) os.
Proof.
  intros Hlg Hkey Hearly Hcl Hcv Hc.
  induction Hearly as [|e early (Hel & Hev & He) _ IH].
  - exists []. split; [|done]. destruct c as [cl cv cm clim ct].
    simpl in Hcl, Hcv, Hc. subst cl cv.
    cbn [app run_calls call_logger call_level call_message call_limit call_time].
    unfold rate_limited_log. rewrite Hlg.
    fold (limiter_key (name lg) level). rewrite Hkey.
    revert Hc. unfold interval_elapsed.
    destruct (PrimFloat.eqb clim 0); [done|]. simpl. by intros ->.
  - destruct IH as (os & Hrun & Hlen & Hos).
    destruct e as [el ev em elim et]. simpl in Hel, Hev, He. subst el ev.
    cbn [app run_calls call_logger call_level call_message call_limit call_time].
    destruct (rate_limited_log_held logger lg level em elim et self p t0 Hlg Hkey He)
      as (o & -> & Ho & _).
    rewrite Hrun. exists (o :: os). split; [done|]. split; [simpl; by rewrite Hlen|].
    by constructor.
Qed.

(** An instance: at one message per second, with a call accepted at
    100.0 s, the calls at 100.25 s and 100.75 s are held back and the call
    at 101.0 s emits. *)
Lemma early_calls_do_not_postpone_witness :
  ∃ os,
    run_calls [Call root INFO "a" 1 100.25; Call root INFO "b" 1 100.75;
               Call root INFO "c" 1 101]
      (set_rate_limiters (<[limiter_key "root" INFO := 100%float]> ∅) default_world.1,
       default_world.2)
    = Some (os ++ [Emitted])
    ∧ length os = 2%nat
    ∧ Forall (λ o, o ≠ Emitted) os.
Proof.
  assert (∃ lg, objects default_world.2 !! root = Some lg ∧ name lg = "root")
    as (lg & Hlg & Hname).
  { eexists. split; vm_compute; reflexivity. }
  refine (early_calls_do_not_postpone root lg INFO _ _ 100
            [Call root INFO "a" 1 100.25; Call root INFO "b" 1 100.75]
            (Call root INFO "c" 1 101) Hlg _ _ eq_refl eq_refl _).
  - rewrite Hname. apply lookup_insert_eq.
  - repeat constructor.
  - vm_compute. reflexivity.
Defined.

End RateLimiterMore.

(** *** More on the manager *)

Section ManagerMore.
Import logging LoggingManager.
Implicit Types (p : state) (self : t) (w : world) (a b : nat) (lg : Logger).

(** **** The constructor, exactly *)

(** [logging.getLogger] for a name other than the root's. *)
Lemma getLogger_named name p :
  library_ok p → name ≠ EmptyString → name ≠ "root" →
  ∃ a p1,
    getLogger name p = (a, p1)
    ∧ a ≠ root
    ∧ library_ok p1
    ∧ loggerDict p1 = <[name := a]> (loggerDict p)
    ∧ objects p1 !! a = Some (default (mkLogger name NOTSET true []) (named p name))
    ∧ (∀ b, b ≠ a → objects p1 !! b = objects p !! b)
    ∧ (∀ n, n ≠ name → loggerDict p !! n ≠ Some a)
    ∧ (length (objects p1) = length (objects p) + (if named p name is Some _ then 0 else 1))%nat
    ∧ records p1 = records p.
Proof.
  intros Hlib Hn1 Hn2.
  destruct (getLogger_ok name p Hlib)
    as (a & lg & p1 & Hget & Hlib1 & Hlg & _ & Hnm & Honly & _ & Hother & _ & Hrec).
  destruct (Hnm Hn1 Hn2) as [_ Har].
  exists a, p1. split; [done|]. split; [done|]. split; [done|].
  revert Hget Hlg Honly Hother. unfold getLogger, named.
  rewrite !bool_decide_eq_false_2 by done. cbn [orb].
  destruct Hlib as (_ & Htable & Hinj).
  destruct (loggerDict p !! name) as [a0|] eqn:Hname.
  - intros [= <- <-] Hlg Honly Hother. cbn [mbind option_bind].
    destruct (Htable name a0 Hname) as (_ & lg0 & Hlg0 & _).
    rewrite Hlg0. split_and!; try done; try lia.
    all: try (by rewrite insert_id).
    intros n Hn Hna. apply Hn. by apply (Hinj n name a0).
  - intros [= <- <-] Hlg Honly Hother. cbn [mbind option_bind objects loggerDict].
    split_and!; try done.
    all: try (by apply list_lookup_middle).
    all: try (rewrite length_app; simpl; lia).
    intros n Hn Hna. destruct (Htable n _ Hna) as (_ & lg0 & Hlg0 & _).
    apply lookup_lt_Some in Hlg0. lia.
Qed.

Lemma special_not_root c : c ∈ special_names → c ≠ EmptyString ∧ c ≠ "root".
Proof.
  intros Hc. assert (is_special c = true) as Hsp by by apply bool_decide_eq_true.
  destruct is_special_root. split; intros ->; congruence.
Qed.

Lemma library_ok_set_propagate_special c a p :
  library_ok p → loggerDict p !! c = Some a → is_special c = true →
  library_ok (set_propagate false a p).
Proof.
  intros ((r & Hr & Hrp) & Htable & Hinj) Hc Hsp.
  destruct (Htable c a Hc) as (Har & _).
  split; [|split]; [| |done].
  - exists r. unfold set_propagate. by rewrite objects_update, decide_False.
  - intros n b Hn. destruct (Htable n b Hn) as (Hb & lg & Hlg & Hnm & Hprop).
    split; [done|]. unfold set_propagate. rewrite objects_update.
    destruct (decide (a = b)) as [<-|Hne].
    + rewrite Hlg. eexists. split; [done|]. split; [done|].
      rewrite (Hinj n c a Hn Hc). congruence.
    + by exists lg.
Qed.

(** One iteration of the constructor's loop, exactly. *)
Lemma initialize_special_logger_exact self p c :
  registry_ok (self, p) → c ∈ special_names → loggers self !! c = None →
  ∃ a p',
    initialize_special_logger (self, p) c
    = (set_special_loggers (special_set c (Some a) (special_loggers self))
         (set_loggers (<[c := a]> (loggers self)) self), p')
    ∧ a ≠ root
    ∧ library_ok p'
    ∧ loggerDict p' = <[c := a]> (loggerDict p)
    ∧ objects p' !! a = Some (special_logger_after self c (named p c))
    ∧ (∀ b, b ≠ a → objects p' !! b = objects p !! b)
    ∧ (∀ n, n ≠ c → loggerDict p !! n ≠ Some a)
    ∧ (length (objects p') = length (objects p) + (if named p c is Some _ then 0 else 1))%nat
    ∧ records p' = records p.
Proof.
  intros [Hlib Hkeys] Hc Hreg. simpl in Hlib, Hkeys.
  destruct (special_not_root c Hc) as [Hc1 Hc2].
  destruct (getLogger_named c p Hlib Hc1 Hc2)
    as (a & p1 & Hget & Har & Hlib1 & Hdict & Hobj & Hother & Honly & Hlen & Hrec).
  assert (special_in c (special_loggers self) = true) as Hin.
  { rewrite (special_in_keys _ _ Hkeys). by apply bool_decide_eq_true. }
  unfold initialize_special_logger, get_logger. rewrite Hreg, Hget, Hin.
  cbn [enable_file set_loggers log_dir max_file_size_mb backup_count detailed_format].
  fold (special_file_handler self c).
  eexists a, _. split; [reflexivity|].
  assert (library_ok (set_propagate false a p1)) as Hlib2.
  { apply (library_ok_set_propagate_special c); [done| |by apply bool_decide_eq_true].
    rewrite Hdict. apply lookup_insert_eq. }
  unfold special_logger_after.
  destruct (enable_file self).
  - split_and!; try done.
    + by apply library_ok_addHandler.
    + unfold addHandler, set_propagate. rewrite !objects_update, !decide_True by done.
      by rewrite Hobj.
    + intros b Hb. unfold addHandler, set_propagate.
      rewrite !objects_update, !decide_False by done. by apply Hother.
    + unfold addHandler, set_propagate, update. cbn [objects].
      by rewrite !length_alter.
  - split_and!; try done.
    + unfold set_propagate. rewrite !objects_update, !decide_True by done.
      rewrite Hobj. simpl. by rewrite app_nil_r.
    + intros b Hb. unfold set_propagate.
      rewrite !objects_update, !decide_False by done. by apply Hother.
    + unfold set_propagate, update. cbn [objects]. by rewrite !length_alter.
Qed.

Lemma special_logger_after_config self1 self2 c before :
  config self1 = config self2 →
  special_logger_after self1 c before = special_logger_after self2 c before.
Proof.
  unfold config, special_logger_after, special_file_handler.
  by intros [= -> _ _ -> -> -> _ ->].
Qed.

Lemma initialize_special_loggers_exact (cs : list string) : ∀ self p,
  NoDup cs → (∀ c, c ∈ cs → c ∈ special_names) →
  registry_ok (self, p) → (∀ c, c ∈ cs → loggers self !! c = None) →
  ∃ self' p',
    foldl initialize_special_logger (self, p) cs = (self', p')
    ∧ library_ok p'
    ∧ config self' = config self
    ∧ (special_loggers self').*1 = (special_loggers self).*1
    ∧ records p' = records p
    ∧ objects p' !! root = objects p !! root
    ∧ (∀ n, named p' n = if decide (n ∈ cs)
                         then Some (special_logger_after self n (named p n))
                         else named p n)
    ∧ (∀ n, n ∉ cs → loggers self' !! n = loggers self !! n)
    ∧ (∀ n, n ∉ cs → loggerDict p' !! n = loggerDict p !! n)
    ∧ (∀ n, n ∉ cs → special_get n (special_loggers self')
                     = special_get n (special_loggers self))
    ∧ (∀ c, c ∈ cs →
         ∃ a, special_get c (special_loggers self') = Some (Some a)
              ∧ loggers self' !! c = Some a
              ∧ loggerDict p' !! c = Some a).
Proof.
  induction cs as [|c cs IH]; intros self p Hnd Hsub Hok Hnew; cbn [foldl].
  - exists self, p. split_and!; try done.
    + by destruct Hok.
    + intros c Hc. by apply elem_of_nil in Hc.
  - apply NoDup_cons in Hnd as [Hc Hnd].
    assert (c ∈ special_names) as Hcsp by (apply Hsub; by left).
    destruct (initialize_special_logger_exact self p c Hok Hcsp)
      as (a & p1 & -> & Har & Hlib1 & Hdict1 & Hobj1 & Hother1 & Honly1 & Hlen1 & Hrec1).
    { apply Hnew. by left. }
    set (self1 := set_special_loggers _ _).
    assert (registry_ok (self1, p1)) as Hok1.
    { split; [done|]. destruct Hok as [_ Hkeys]. simpl in *.
      rewrite special_set_keys; [done|]. by rewrite Hkeys. }
    assert (∀ n, n ≠ c → named p1 n = named p n) as Hnamed1.
    { intros n Hn. unfold named. rewrite Hdict1, lookup_insert_ne by done.
      destruct (loggerDict p !! n) as [b|] eqn:Hb; [|done]. simpl.
      apply Hother1. intros ->. by apply (Honly1 n). }
    assert (named p1 c = Some (special_logger_after self c (named p c))) as Hnamedc.
    { unfold named at 1. rewrite Hdict1, lookup_insert_eq. done. }
    destruct (IH self1 p1 Hnd) as
      (self' & p' & Hfold & Hlib' & Hcfg' & Hkeys' & Hrec' & Hroot' & Hnamed' & Hreg' & Htab' & Hget'
       & Hsp');
      [|done| |].
    { intros c' Hc'. apply Hsub. by right. }
    { intros c' Hc'. simpl. rewrite lookup_insert_ne by (intros ->; done).
      apply Hnew. by right. }
    exists self', p'. split; [done|]. split; [done|]. split; [done|].
    split.
    { rewrite Hkeys'. destruct Hok as [_ Hkeys]. simpl in *.
      rewrite special_set_keys; [done|]. by rewrite Hkeys. }
    split; [congruence|]. split; [rewrite Hroot'; by apply Hother1|].
    split_and!.
    + intros n. rewrite Hnamed'.
      destruct (decide (n = c)) as [->|Hn].
      * rewrite decide_False by done. rewrite decide_True by left. done.
      * destruct (decide (n ∈ cs)) as [Hin|Hout].
        -- rewrite decide_True by by right. by rewrite (Hnamed1 n Hn).
        -- rewrite decide_False; [by apply Hnamed1|]. by intros [?|?]%elem_of_cons.
    + intros n [Hn Hout]%not_elem_of_cons. rewrite Hreg' by done. simpl.
      by rewrite lookup_insert_ne.
    + intros n [Hn Hout]%not_elem_of_cons. rewrite Htab' by done.
      by rewrite Hdict1, lookup_insert_ne.
    + intros n [Hn Hout]%not_elem_of_cons. rewrite Hget' by done.
      destruct Hok as [_ Hkeys]. simpl in Hkeys.
      simpl. rewrite special_get_set, decide_False; [done..|]. by rewrite Hkeys.
    + intros c' [->|Hc']%elem_of_cons; [|by apply Hsp'].
      exists a. rewrite Hreg', Htab' by done.
      split_and!.
      * rewrite Hget' by done. destruct Hok as [_ Hkeys]. simpl in Hkeys.
        simpl. rewrite special_get_set, decide_True; [done..|]. by rewrite Hkeys.
      * simpl. by rewrite lookup_insert_eq.
      * by rewrite Hdict1, lookup_insert_eq.
Qed.

Lemma configure_root_logger_exact self p r :
  library_ok p → objects p !! root = Some r →
  ∃ p1,
    _configure_root_logger (self, p) = (set_loggers (<["root" := root]> (loggers self)) self, p1)
    ∧ library_ok p1
    ∧ objects p1 !! root
      = Some (mkLogger (name r) (default_level self) (propagate r) (root_handlers self))
    ∧ (∀ b, b ≠ root → objects p1 !! b = objects p !! b)
    ∧ loggerDict p1 = loggerDict p
    ∧ records p1 = records p.
Proof.
  intros Hlib Hr. unfold _configure_root_logger, root_handlers.
  eexists. split; [reflexivity|].
  destruct (enable_console self), (enable_file self);
    unfold addHandler, setLevel, removeHandlers;
    (split; [by repeat apply library_ok_update|]);
    (split; [rewrite !objects_update, !decide_True, Hr by done; done|]);
    (split; [|done]);
    intros b Hb; by rewrite !objects_update, !decide_False.
Qed.

Lemma named_off_root p p1 n :
  library_ok p → loggerDict p1 = loggerDict p →
  (∀ b, b ≠ root → objects p1 !! b = objects p !! b) →
  named p1 n = named p n.
Proof.
  intros (_ & Htable & _) Hdict Hobj. unfold named. rewrite Hdict.
  destruct (loggerDict p !! n) as [b|] eqn:Hb; [|done]. simpl.
  apply Hobj. by destruct (Htable n b Hb).
Qed.

(** The world the constructor leaves behind, exactly. *)
Lemma init_exact log_dir level console file mb backups p r :
  library_ok p → objects p !! root = Some r →
  ∃ self' p',
    __init__ log_dir level console file mb backups p = (self', p')
    ∧ library_ok p'
    ∧ (∃ f1 f2, config self' = (log_dir, level, console, file, mb, backups, f1, f2))
    ∧ (special_loggers self').*1 = special_names
    ∧ rate_limiters self' = ∅
    ∧ records p' = records p
    ∧ objects p' !! root = Some (mkLogger (name r) level (propagate r) (root_handlers self'))
    ∧ (∀ n, named p' n = if decide (n ∈ special_names)
                         then Some (special_logger_after self' n (named p n))
                         else named p n)
    ∧ (∀ n, n ∉ special_names →
         loggers self' !! n = if decide (n = "root") then Some root else None)
    ∧ (∀ c, c ∈ special_names →
         ∃ a, special_get c (special_loggers self') = Some (Some a)
              ∧ loggers self' !! c = Some a
              ∧ loggerDict p' !! c = Some a).
Proof.
  intros Hlib Hr.
  destruct (manager_init_ok log_dir level console file mb backups p Hlib)
    as (_ & _ & _ & _ & Hrl & _).
  revert Hrl. unfold __init__, _initialize_special_loggers.
  set (self0 := mk _ _ _ _ _ _ _ _ _ _ _).
  destruct (configure_root_logger_exact self0 p r Hlib Hr)
    as (p1 & -> & Hlib1 & Hroot1 & Hoff1 & Hdict1 & Hrec1).
  set (self1 := set_loggers _ self0).
  change ((special_loggers (self1, p1).1).*1) with special_names.
  destruct (initialize_special_loggers_exact special_names self1 p1 NoDup_special_names)
    as (self' & p' & -> & Hlib' & Hcfg' & Hkeys' & Hrec' & Hroot' & Hnamed' & Hreg' & Htab'
        & Hget' & Hsp'); [done|done| |].
  { intros c Hc. simpl. rewrite lookup_insert_ne; [done|].
    intros <-. by apply root_not_special. }
  intros Hrl. simpl in Hrl.
  exists self', p'. split; [done|]. split; [done|].
  split; [rewrite Hcfg'; by eexists _, _|].
  split; [by rewrite Hkeys'|].
  split; [done|].
  split; [congruence|].
  assert (root_handlers self' = root_handlers self1) as ->.
  { unfold root_handlers. by injection Hcfg' as -> _ -> -> -> -> -> ->. }
  split; [by rewrite Hroot'|].
  split_and!.
  - intros n. rewrite Hnamed', (named_off_root p p1) by done.
    case_decide; [|done]. f_equal. symmetry. by apply special_logger_after_config.
  - intros n Hn. rewrite Hreg' by done. simpl. rewrite lookup_insert.
    destruct (decide ("root" = n)), (decide (n = "root")); congruence || done.
  - done.
Qed.

(** **** The invariant of a constructed manager, in full *)

Lemma manager_wf_init log_dir level console file mb backups p :
  library_ok p → manager_wf (__init__ log_dir level console file mb backups p).
Proof.
  intros Hlib. pose proof Hlib as ((r & Hr & _) & _).
  destruct (manager_init_ok log_dir level console file mb backups p Hlib) as (Hok & _).
  destruct (init_exact log_dir level console file mb backups p r Hlib Hr)
    as (self' & p' & Hinit & _ & _ & _ & _ & _ & _ & _ & Hreg & Hsp).
  rewrite Hinit in *. split; [done|]. split.
  - intros c Hc. destruct (Hsp c Hc) as (a & ? & ? & _). by exists a.
  - intros n a Hn. simpl in *.
    destruct (decide (n ∈ special_names)) as [Hin|Hout].
    + destruct (special_not_root n Hin) as [H1 H2].
      rewrite bool_decide_eq_false_2 by (by intros [?|?]).
      destruct (Hsp n Hin) as (a' & _ & Ha' & Hd). congruence.
    + rewrite (Hreg n Hout) in Hn. case_decide as Hroot; [|done].
      injection Hn as <-. rewrite bool_decide_eq_true_2; [done|by right].
Qed.

Lemma manager_wf_frame self p self' p' :
  manager_wf (self, p) → manager_ok (self', p') →
  special_loggers self' = special_loggers self →
  loggers self' = loggers self →
  loggerDict p' = loggerDict p →
  manager_wf (self', p').
Proof.
  intros (_ & Hsp & Hreg) Hok Hs Hl Hd. simpl in *.
  split; [done|]. simpl. rewrite Hs, Hl, Hd. done.
Qed.

(** [get_logger] on a name that is not registered, in a constructed
    manager: no propagation flag is touched. *)
Lemma get_logger_new name self p :
  manager_wf (self, p) → loggers self !! name = None →
  (name ≠ "root") ∧ (name ∉ special_names)
  ∧ get_logger name (self, p)
    = ((getLogger name p).1,
       (set_loggers (<[name := (getLogger name p).1]> (loggers self)) self,
        (getLogger name p).2)).
Proof.
  intros (([_ Hkeys] & Hroot & _) & Hsp & _) Hname. simpl in *.
  assert (name ∉ special_names) as Hns.
  { intros Hin. destruct (Hsp name Hin) as (a & _ & Ha). congruence. }
  split; [intros ->; congruence|]. split; [done|].
  unfold get_logger. rewrite Hname.
  destruct (getLogger name p) as [a p1]. rewrite (special_in_keys _ _ Hkeys).
  unfold is_special. by rewrite bool_decide_eq_false_2.
Qed.

Lemma get_logger_manager_wf name w : manager_wf w → manager_wf (get_logger name w).2.
Proof.
  destruct w as [self p]. intros Hwf.
  assert (manager_ok (get_logger name (self, p)).2) as Hok'
    by (apply get_logger_manager_ok, Hwf).
  destruct (loggers self !! name) as [a|] eqn:Hname.
  { by rewrite (get_logger_registered _ _ _ _ Hname). }
  destruct (get_logger_new name self p Hwf Hname) as (Hnr & Hns & Hget).
  rewrite Hget in *.
  destruct Hwf as (([Hlib _] & _) & Hsp & Hreg). simpl in *.
  split; [done|]. simpl. split.
  - intros c Hc. destruct (Hsp c Hc) as (a & ? & Ha). exists a. split; [done|].
    rewrite lookup_insert_ne; [done|]. intros ->. congruence.
  - intros n a. rewrite lookup_insert. case_decide as Hn.
    + subst n. intros [= <-]. case_bool_decide as Hrootname.
      * destruct Hrootname as [Hn | Hn]; [by subst name|done].
      * destruct (getLogger_named name p Hlib) as (a & p1 & Hg & _ & _ & Hd & _);
          [by intros ->; apply Hrootname; left|done|].
        rewrite Hg. simpl. rewrite Hd. apply lookup_insert_eq.
    + intros Hna. specialize (Hreg n a Hna). case_bool_decide; [done|].
      unfold getLogger.
      destruct (bool_decide (name = EmptyString) || bool_decide (name = "root")); [done|].
      destruct (loggerDict p !! name) eqn:Hd; [done|]. simpl.
      rewrite lookup_insert_ne; [done|]. intros ->. congruence.
Qed.

Lemma set_level_frame level names self p :
  ∃ p', set_level level names (self, p) = (self, p')
        ∧ loggerDict p' = loggerDict p ∧ records p' = records p
        ∧ ∀ b lg, objects p !! b = Some lg →
            ∃ lg', objects p' !! b = Some lg' ∧ name lg' = name lg
                   ∧ propagate lg' = propagate lg ∧ handlers lg' = handlers lg.
Proof.
  assert (∀ addrs, ∃ p', foldl (λ p a, setLevel level a p) p addrs = p'
            ∧ loggerDict p' = loggerDict p ∧ records p' = records p
            ∧ ∀ b lg, objects p !! b = Some lg →
                ∃ lg', objects p' !! b = Some lg' ∧ name lg' = name lg
                       ∧ propagate lg' = propagate lg ∧ handlers lg' = handlers lg) as Hfold.
  { intros addrs. eexists. split; [done|].
    destruct (setLevel_all level addrs p) as (-> & -> & Hobj).
    split; [done|]. split; [done|]. intros b lg Hb. rewrite Hobj, Hb.
    case_decide; eexists; (split; [done|]); done. }
  destruct names as [names|]; simpl.
  - rewrite set_level_names_omap.
    destruct (Hfold (omap (λ n, loggers self !! n) names)) as (p' & <- & ?). by eexists.
  - destruct (Hfold (map_to_list (loggers self)).*2) as (p' & <- & ?). by eexists.
Qed.

(** What one method call keeps. *)
Lemma method_call_frame w w' :
  manager_wf w → method_call w w' →
  manager_wf w'
  ∧ config w'.1 = config w.1
  ∧ special_loggers w'.1 = special_loggers w.1
  ∧ (∀ n a, loggers w.1 !! n = Some a → loggers w'.1 !! n = Some a)
  ∧ (∀ n a, loggerDict w.2 !! n = Some a → loggerDict w'.2 !! n = Some a)
  ∧ (∀ b lg, objects w.2 !! b = Some lg →
       ∃ lg', objects w'.2 !! b = Some lg' ∧ name lg' = name lg
              ∧ propagate lg' = propagate lg ∧ handlers lg' = handlers lg)
  ∧ records w.2 `prefix_of` records w'.2
  ∧ (∀ k, is_Some (rate_limiters w.1 !! k) → is_Some (rate_limiters w'.1 !! k)).
Proof.
  intros Hwf Hcall.
  destruct Hcall as [name w|level names w|category enable w w' Hcall
                    |logger level message limit now w o w' Hcall].
  - split; [by apply get_logger_manager_wf|].
    destruct w as [self p].
    destruct (loggers self !! name) as [a|] eqn:Hname.
    { rewrite (get_logger_registered _ _ _ _ Hname). split_and!; try done.
      intros b lg Hb. by exists lg. }
    destruct (get_logger_new name self p Hwf Hname) as (Hnr & Hns & ->).
    destruct Hwf as (([Hlib _] & _) & _). simpl in Hlib.
    destruct (getLogger_ok name p Hlib)
      as (a & lg & p1 & Hget & _ & _ & _ & _ & _ & _ & _ & Hold & Hrec).
    rewrite Hget. simpl. split_and!; try done.
    + intros n b Hn. rewrite lookup_insert_ne; [done|]. intros ->. congruence.
    + intros n b Hn. revert Hget. unfold getLogger.
      destruct (_ || _); [by intros [= _ <-]|].
      destruct (loggerDict p !! name) eqn:Hd; intros [= _ <-]; [done|]. simpl.
      rewrite lookup_insert_ne; [done|]. intros ->. congruence.
    + intros b lg0 Hb. exists lg0. by rewrite (Hold b lg0 Hb).
    + by rewrite Hrec.
  - destruct w as [self p].
    destruct (set_level_frame level names self p) as (p' & Heq & Hd & Hr & Hobj).
    split.
    { rewrite Heq. apply (manager_wf_frame self p); try done.
      rewrite <- Heq. apply set_level_manager_ok, Hwf. }
    rewrite Heq. simpl. split_and!; try done; [by rewrite Hd|by rewrite Hr].
  - destruct w as [self p].
    assert (manager_ok w') as Hok'
      by (eapply toggle_special_logger_manager_ok; [apply Hwf|done]).
    revert Hcall Hok'. unfold toggle_special_logger.
    destruct (special_get category (special_loggers self)) as [[a|]|];
      [|intros [= <-] _; split_and!; try done; intros b lg Hb; by exists lg..].
    destruct (loggers self !! "root") as [r|]; [|done].
    intros [= <-] Hok'.
    match goal with |- context [log ?l ?v ?m ?q] =>
      destruct (log_frame l v m q) as (Hlo & Hld & _);
      pose proof (log_prefix l v m q) as Hlp
    end.
    split; [by apply (manager_wf_frame self p)|].
    cbn [fst snd]. rewrite Hlo, Hld. split_and!; try done.
    intros b lg Hb. rewrite objects_setLevel, Hb.
    case_decide; eexists; (split; [done|]); done.
  - destruct w as [self p].
    assert (manager_ok w') as Hok'
      by (eapply rate_limited_log_manager_ok; [apply Hwf|done]).
    revert Hcall Hok'. unfold rate_limited_log.
    destruct (objects p !! logger) as [lg|]; [|done].
    set (key := name lg +:+ ":" +:+ str level).
    assert (∀ v, manager_ok (set_rate_limiters (<[key := v]> (rate_limiters self)) self,
                             log logger level message p) →
              manager_wf (set_rate_limiters (<[key := v]> (rate_limiters self)) self,
                          log logger level message p)
              ∧ ∀ k, is_Some (rate_limiters self !! k)
                     → is_Some (<[key := v]> (rate_limiters self) !! k)) as Hemit.
    { intros v Hok'. split.
      - apply (manager_wf_frame self p); try done. apply log_frame.
      - intros k Hk. rewrite lookup_insert. by case_decide. }
    destruct (rate_limiters self !! key).
    + destruct (PrimFloat.eqb limit 0);
        [intros [= _ <-] _; split_and!; try done; intros b lg0 Hb; by exists lg0|].
      destruct (PrimFloat.leb _ _);
        [|intros [= _ <-] _; split_and!; try done; intros b lg0 Hb; by exists lg0].
      intros [= _ <-] Hok'. destruct (Hemit _ Hok') as [Hwf' Hkeys].
      destruct (log_frame logger level message p) as (Hlo & Hld & _).
      cbn [fst snd]. rewrite Hlo, Hld.
      split_and!; try done; [intros b lg0 Hb; by exists lg0|apply log_prefix].
    + intros [= _ <-] Hok'. destruct (Hemit _ Hok') as [Hwf' Hkeys].
      destruct (log_frame logger level message p) as (Hlo & Hld & _).
      cbn [fst snd]. rewrite Hlo, Hld.
      split_and!; try done; [intros b lg0 Hb; by exists lg0|apply log_prefix].
Qed.

(** What any number of method calls keep. *)
Lemma method_calls_frame w w' :
  manager_wf w → rtc method_call w w' →
  manager_wf w'
  ∧ config w'.1 = config w.1
  ∧ special_loggers w'.1 = special_loggers w.1
  ∧ (∀ n a, loggers w.1 !! n = Some a → loggers w'.1 !! n = Some a)
  ∧ (∀ n a, loggerDict w.2 !! n = Some a → loggerDict w'.2 !! n = Some a)
  ∧ (∀ b lg, objects w.2 !! b = Some lg →
       ∃ lg', objects w'.2 !! b = Some lg' ∧ name lg' = name lg
              ∧ propagate lg' = propagate lg ∧ handlers lg' = handlers lg)
  ∧ records w.2 `prefix_of` records w'.2
  ∧ (∀ k, is_Some (rate_limiters w.1 !! k) → is_Some (rate_limiters w'.1 !! k)).
Proof.
  intros Hwf Hcalls. induction Hcalls as [w|w w1 w' Hcall _ IH].
  - split_and!; try done. intros b lg Hb. by exists lg.
  - destruct (method_call_frame w w1 Hwf Hcall)
      as (Hwf1 & Hc1 & Hs1 & Hl1 & Hd1 & Ho1 & Hr1 & Hk1).
    destruct (IH Hwf1) as (Hwf' & Hc' & Hs' & Hl' & Hd' & Ho' & Hr' & Hk').
    split_and!; try done; try congruence; auto.
    + intros b lg Hb. destruct (Ho1 b lg Hb) as (lg1 & Hb1 & ? & ? & ?).
      destruct (Ho' b lg1 Hb1) as (lg' & Hb' & ? & ? & ?).
      exists lg'. split_and!; congruence.
    + by etrans.
Qed.

(** X8: the constructor resets the root logger: whatever handlers and
    level it had, it then has the level [default_level] and exactly the
    handlers of the configuration, the console handler (if enabled) before
    the file handler on "main.log" (if enabled); its name and propagation
    flag are kept. *)
Theorem init_root_logger log_dir level console file mb backups p r :
  library_ok p → objects p !! root = Some r →
  objects (__init__ log_dir level console file mb backups p).2 !! root
  = Some (mkLogger (name r) level (propagate r)
            ((if console
              then [StreamHandler
                      (standard_format (__init__ log_dir level console file mb backups p).1)]
              else [])
             ++ (if file
                 then [RotatingFileHandler (os_path_join log_dir "main.log")
                         (mb * 1024 * 1024) backups
                         (detailed_format
                            (__init__ log_dir level console file mb backups p).1)]
                 else []))).
Proof.
  intros Hlib Hr.
  destruct (init_exact log_dir level console file mb backups p r Hlib Hr)
    as (self' & p' & -> & _ & (f1 & f2 & Hcfg) & _ & _ & _ & Hroot & _).
  simpl. rewrite Hroot. unfold root_handlers.
  by injection Hcfg as -> _ -> -> -> -> _ _.
Qed.

(** An instance: the root logger of the default manager. *)
Lemma init_root_logger_witness :
  (handlers <$> objects default_world.2 !! root)
  = Some [StreamHandler (standard_format default_world.1);
          RotatingFileHandler "logs/main.log" (10 * 1024 * 1024) 5
            (detailed_format default_world.1)]
  ∧ level <$> objects default_world.2 !! root = Some INFO.
Proof.
  pose proof (init_root_logger "logs" INFO true true 10 5 fresh _ library_ok_fresh eq_refl)
    as Hroot.
  fold default_world in Hroot. rewrite Hroot. split; reflexivity.
Defined.

(** X9: of the loggers the library files under a name, the constructor
    changes exactly those of the five special categories: such a logger
    (created if the library had none under that name) keeps its level and
    the handlers it had, stops propagating and, when file output is
    enabled, gets the category's file handler appended; every other named
    logger is left as it was. *)
Theorem init_named_loggers log_dir level console file mb backups p n :
  library_ok p →
  named (__init__ log_dir level console file mb backups p).2 n
  = if decide (n ∈ special_names)
    then Some (special_logger_after (__init__ log_dir level console file mb backups p).1 n
                 (named p n))
    else named p n.
Proof.
  intros Hlib. pose proof Hlib as ((r & Hr & _) & _).
  destruct (init_exact log_dir level console file mb backups p r Hlib Hr)
    as (self' & p' & -> & _ & _ & _ & _ & _ & _ & Hnamed & _).
  apply Hnamed.
Qed.

(** An instance: in a fresh process the sync logger gets exactly one
    handler. *)
Lemma init_named_loggers_witness :
  named default_world.2 "sync"
  = Some (mkLogger "sync" NOTSET false
            [RotatingFileHandler "logs/sync.log" (10 * 1024 * 1024) 5
               (detailed_format default_world.1)]).
Proof.
  pose proof (init_named_loggers "logs" INFO true true 10 5 fresh "sync" library_ok_fresh)
    as Hsync.
  fold default_world in Hsync. rewrite Hsync. vm_compute. reflexivity.
Defined.

(** X10: a second manager constructed in the same process, with file
    output enabled both times, leaves each special logger with the file
    handlers of both constructions, one after the other, while the root
    logger has the handlers of the second construction only. *)
Theorem second_manager_adds_handlers (d1 : string) (l1 : Z) (c1 : bool) (mb1 bk1 : Z)
    (d2 : string) (l2 : Z) (c2 : bool) (mb2 bk2 : Z) (p : state) (c : string) :
  library_ok p → c ∈ special_names →
  ∃ lg r,
    named (__init__ d2 l2 c2 true mb2 bk2 (__init__ d1 l1 c1 true mb1 bk1 p).2).2 c = Some lg
    ∧ handlers lg
      = handlers (default (mkLogger c NOTSET true []) (named p c))
        ++ [special_file_handler (__init__ d1 l1 c1 true mb1 bk1 p).1 c;
            special_file_handler
              (__init__ d2 l2 c2 true mb2 bk2 (__init__ d1 l1 c1 true mb1 bk1 p).2).1 c]
    ∧ objects (__init__ d2 l2 c2 true mb2 bk2 (__init__ d1 l1 c1 true mb1 bk1 p).2).2 !! root
      = Some r
    ∧ handlers r
      = root_handlers (__init__ d2 l2 c2 true mb2 bk2 (__init__ d1 l1 c1 true mb1 bk1 p).2).1.
Proof.
  intros Hlib Hc. pose proof Hlib as ((r & Hr & _) & _).
  destruct (init_exact d1 l1 c1 true mb1 bk1 p r Hlib Hr)
    as (self1 & p1 & -> & Hlib1 & (f1 & f2 & Hcfg1) & _ & _ & _ & Hroot1 & Hnamed1 & _).
  simpl.
  destruct (init_exact d2 l2 c2 true mb2 bk2 p1 _ Hlib1 Hroot1)
    as (self2 & p2 & -> & _ & (g1 & g2 & Hcfg2) & _ & _ & _ & Hroot2 & Hnamed2 & _).
  simpl. rewrite Hnamed2, Hnamed1, !decide_True by done.
  eexists _, _. split; [done|]. split; [|split; [done|done]].
  unfold special_logger_after. cbn [default handlers].
  assert (enable_file self1 = true) as -> by by injection Hcfg1.
  assert (enable_file self2 = true) as -> by by injection Hcfg2.
  cbn [id handlers]. by rewrite <- app_assoc.
Qed.

(** An instance: the default manager constructed twice in a fresh
    process. *)
Lemma second_manager_adds_handlers_witness :
  ∃ lg,
    named (__init__ "logs" INFO true true 10 5 default_world.2).2 "sync" = Some lg
    ∧ handlers lg
      = [RotatingFileHandler "logs/sync.log" (10 * 1024 * 1024) 5
           (detailed_format default_world.1);
         RotatingFileHandler "logs/sync.log" (10 * 1024 * 1024) 5
           (detailed_format default_world.1)].
Proof.
  destruct (second_manager_adds_handlers "logs" INFO true 10 5 "logs" INFO true 10 5
              fresh "sync" library_ok_fresh)
    as (lg & r & Hlg & Hh & _).
  { right. right. left. }
  exists lg. split; [exact Hlg|]. rewrite Hh. vm_compute. reflexivity.
Defined.

(** **** Worlds a program can bring about *)

Lemma reachable_from_init w :
  reachable w →
  ∃ (log_dir : string) (lvl : Z) (console file : bool) (mb backups : Z) p,
    library_ok p
    ∧ rtc method_call (__init__ log_dir lvl console file mb backups p) w.
Proof.
  induction 1 as [d l c f mb bk p Hp
                 |n w _ IH
                 |l ns w _ IH
                 |cat en w w' _ IH Ht
                 |lgr l m lim now w o w' _ IH Hr].
  - exists d, l, c, f, mb, bk, p. split; [exact Hp|apply rtc_refl].
  - destruct IH as (d & l & c & f & mb & bk & p & Hp & Hrtc).
    exists d, l, c, f, mb, bk, p. split; [exact Hp|].
    eapply rtc_r; [exact Hrtc|]. constructor.
  - destruct IH as (d & l0 & c & f & mb & bk & p & Hp & Hrtc).
    exists d, l0, c, f, mb, bk, p. split; [exact Hp|].
    eapply rtc_r; [exact Hrtc|]. constructor.
  - destruct IH as (d & l & c & f & mb & bk & p & Hp & Hrtc).
    exists d, l, c, f, mb, bk, p. split; [exact Hp|].
    eapply rtc_r; [exact Hrtc|]. by econstructor.
  - destruct IH as (d & l0 & c & f & mb & bk & p & Hp & Hrtc).
    exists d, l0, c, f, mb, bk, p. split; [exact Hp|].
    eapply rtc_r; [exact Hrtc|]. by econstructor.
Qed.

Lemma reachable_wf w : reachable w → manager_wf w.
Proof.
  intros (d & l & c & f & mb & bk & p & Hp & Hrtc)%reachable_from_init.
  eapply method_calls_frame; [|exact Hrtc]. by apply manager_wf_init.
Qed.

(** In such a world every special category has its logger, registered
    under its name with the manager and with the library, named after the
    category and not propagating. *)
Lemma reachable_special w c :
  reachable w → c ∈ special_names →
  ∃ a lg,
    special_get c (special_loggers w.1) = Some (Some a)
    ∧ loggers w.1 !! c = Some a
    ∧ loggerDict w.2 !! c = Some a
    ∧ objects w.2 !! a = Some lg
    ∧ name lg = c ∧ propagate lg = false.
Proof.
  intros (d & l & cs & f & mb & bk & p & Hp & Hrtc)%reachable_from_init Hc.
  pose proof Hp as ((r & Hr & _) & _).
  pose proof (manager_wf_init d l cs f mb bk p Hp) as Hwf0.
  destruct (init_exact d l cs f mb bk p r Hp Hr)
    as (self0 & p0 & Hinit & Hlib0 & _ & _ & _ & _ & _ & Hnamed & _ & Hspec).
  rewrite Hinit in Hwf0, Hrtc.
  destruct (Hspec c Hc) as (a & Hget & Hreg & Hdict).
  assert (∃ lg, objects p0 !! a = Some lg ∧ name lg = c ∧ propagate lg = false)
    as (lg0 & Hlg0 & Hname0 & Hprop0).
  { destruct Hlib0 as (_ & Hd & _). destruct (Hd c a Hdict) as (_ & lg & Hlg & Hnm & _).
    exists lg. split; [done|]. split; [done|].
    specialize (Hnamed c). rewrite decide_True in Hnamed by done.
    unfold named in Hnamed. rewrite Hdict in Hnamed. cbn [mbind option_bind] in Hnamed.
    rewrite Hlg in Hnamed. by injection Hnamed as ->. }
  destruct (method_calls_frame _ _ Hwf0 Hrtc)
    as (_ & _ & Hs & Hl & Hd & Ho & _).
  destruct (Ho a lg0 Hlg0) as (lg & Hlg & Hnm & Hpr & _).
  exists a, lg. cbn [fst snd] in *. rewrite Hs.
  split_and!; auto; congruence.
Qed.

Lemma state_eq p q :
  objects p = objects q → loggerDict p = loggerDict q → records p = records q → p = q.
Proof. destruct p, q. cbn. by intros -> -> ->. Qed.

(** **** [get_logger], without assumptions on propagation *)

Lemma library_ok_wf p : library_ok p → library_wf p.
Proof.
  intros ((r & Hr & _) & Hd & _). split; [by exists r|].
  intros n a Hn. destruct (Hd n a Hn) as (Har & lg & Hlg & Hnm & _).
  split; [done|]. by exists lg.
Qed.

Lemma library_wf_update f a p :
  (∀ lg, name (f lg) = name lg) → library_wf p → library_wf (update f a p).
Proof.
  intros Hf [[r Hr] Hd]. split.
  - rewrite objects_update, Hr. case_decide; by eexists.
  - intros n b Hn. destruct (Hd n b Hn) as (Hbr & lg & Hlg & Hnm).
    split; [done|]. rewrite objects_update, Hlg.
    case_decide; eexists; (split; [done|]); by rewrite ?Hf.
Qed.

(** [logging.getLogger] for a name other than the root's, exactly. *)
Lemma getLogger_exact name p :
  library_wf p → name ≠ EmptyString → name ≠ "root" →
  ∃ a p1,
    getLogger name p = (a, p1)
    ∧ a ≠ root
    ∧ library_wf p1
    ∧ loggerDict p1 = <[name := a]> (loggerDict p)
    ∧ objects p1 !! a = Some (default (mkLogger name NOTSET true []) (named p name))
    ∧ logging.name (default (mkLogger name NOTSET true []) (named p name)) = name
    ∧ (∀ b, b ≠ a → objects p1 !! b = objects p !! b)
    ∧ records p1 = records p
    ∧ match loggerDict p !! name with
      | Some a0 => a = a0 ∧ p1 = p
      | None => a = length (objects p)
                ∧ objects p1 = objects p ++ [mkLogger name NOTSET true []]
                ∧ named p name = None
      end.
Proof.
  intros Hwf Hn1 Hn2. pose proof Hwf as [[r Hr] Hd].
  unfold getLogger, named. rewrite !bool_decide_eq_false_2 by done. cbn [orb].
  destruct (loggerDict p !! name) as [a0|] eqn:Hdict.
  - destruct (Hd name a0 Hdict) as (Har & lg & Hlg & Hnm).
    exists a0, p. cbn [mbind option_bind]. rewrite Hlg. cbn [default].
    split_and!; try done. by rewrite insert_id.
  - eexists _, _. split; [reflexivity|]. cbn [objects loggerDict records mbind option_bind].
    assert (length (objects p) ≠ root) as Hlen.
    { apply lookup_lt_Some in Hr. unfold root in *. lia. }
    split_and!; try done.
    + split.
      * exists r. cbn [objects]. by rewrite lookup_app_l by by eapply lookup_lt_Some.
      * intros n b. cbn [objects loggerDict]. rewrite lookup_insert.
        case_decide as Hnb.
        -- intros [= <-]. split; [done|]. eexists.
           rewrite lookup_app_r, Nat.sub_diag by done. split; [done|]. by subst.
        -- intros Hb. destruct (Hd n b Hb) as (Hbr & lg & Hlg & Hnm).
           split; [done|]. exists lg.
           by rewrite lookup_app_l by by eapply lookup_lt_Some.
    + by rewrite lookup_app_r, Nat.sub_diag.
    + intros b Hb. destruct (decide (b < length (objects p))%nat).
      * by rewrite lookup_app_l.
      * rewrite !lookup_ge_None_2; [done|lia|rewrite length_app; simpl; lia].
Qed.

(** C4, amended: [get_logger] returns the logger registered under the name
    when there is one and changes nothing.  Otherwise it registers, under
    the name, the logger the logging library hands out for it: the root
    logger for the empty name and for "root", nothing being made or
    changed; for any other name the library's logger of that name, which
    bears the name and is not the root logger, namely the existing one if
    the library has one (no object is made; it keeps its level, its
    handlers and, unless the name is special, its propagation flag as
    found) and else one new object with level [NOTSET], no handlers, and
    propagating exactly when the name is not special.  A special name has
    its logger's propagation switched off in both cases.  No other object
    is touched and nothing is logged.  Called any number of times with one
    name, it returns the same handle each time and, after the first call,
    changes nothing. *)
Theorem get_logger_spec name self p :
  library_wf p → (special_loggers self).*1 = special_names →
  (∀ a, loggers self !! name = Some a → get_logger name (self, p) = (a, (self, p)))
  ∧ (loggers self !! name = None →
       ∃ a p',
         get_logger name (self, p)
         = (a, (set_loggers (<[name := a]> (loggers self)) self, p'))
         ∧ records p' = records p
         ∧ (∀ b, b ≠ a → objects p' !! b = objects p !! b)
         ∧ (name = EmptyString ∨ name = "root" → a = root ∧ p' = p)
         ∧ (name ≠ EmptyString → name ≠ "root" →
              a ≠ root
              ∧ loggerDict p' = <[name := a]> (loggerDict p)
              ∧ objects p' !! a = Some (logger_for name (named p name))
              ∧ logging.name (logger_for name (named p name)) = name
              ∧ match loggerDict p !! name with
                | Some a0 => a = a0 ∧ length (objects p') = length (objects p)
                | None => a = length (objects p)
                          ∧ length (objects p') = S (length (objects p))
                          ∧ logger_for name (named p name)
                            = mkLogger name NOTSET (negb (is_special name)) []
                end))
  ∧ ∀ N,
      (get_logger_times (S N) name (self, p)).1
      = replicate (S N) (get_logger name (self, p)).1
      ∧ (get_logger_times (S N) name (self, p)).2 = (get_logger name (self, p)).2.
Proof.
  intros Hwf Hkeys. split; [|split].
  - intros a. apply get_logger_registered.
  - intros Hreg. unfold get_logger. rewrite Hreg.
    rewrite (special_in_keys _ _ Hkeys).
    destruct (decide (name = EmptyString ∨ name = "root")) as [Hroot|Hnamed].
    + assert (getLogger name p = (root, p)) as ->.
      { unfold getLogger. by destruct Hroot as [-> | ->]. }
      assert (is_special name = false) as ->.
      { destruct is_special_root. by destruct Hroot as [-> | ->]. }
      exists root, p. split_and!; try done. intros ? ?. by destruct Hroot.
    + assert (name ≠ EmptyString ∧ name ≠ "root") as [Hn1 Hn2] by tauto.
      destruct (getLogger_exact name p Hwf Hn1 Hn2)
        as (a & p1 & -> & Har & _ & Hd1 & Ha & Hname & Hother & Hrec & Hcase).
      eexists a, _. split; [reflexivity|].
      assert (length (objects p1)
              = if loggerDict p !! name is Some _ then length (objects p)
                else S (length (objects p))) as Hlen.
      { destruct (loggerDict p !! name); [by destruct Hcase as [_ ->]|].
        destruct Hcase as (_ & -> & _). rewrite length_app. simpl. lia. }
      unfold logger_for. destruct (is_special name) eqn:Hsp.
      * unfold set_propagate. cbn [loggerDict records update].
        split; [done|]. split.
        { intros b Hb. rewrite objects_update, decide_False by done. by apply Hother. }
        split; [tauto|]. intros _ _. split; [done|]. split; [done|].
        split; [by rewrite objects_update, decide_True, Ha by done|].
        split; [done|].
        assert (length (objects (update (λ l, mkLogger (logging.name l) (level l) false
                                                 (handlers l)) a p1))
                = length (objects p1)) as Hlen'.
        { unfold update. cbn [objects]. apply length_alter. }
        rewrite Hlen', Hlen.
        destruct (loggerDict p !! name); [by destruct Hcase|].
        destruct Hcase as (-> & _ & ->). done.
      * split; [done|]. split; [done|]. split; [tauto|]. intros _ _.
        split; [done|]. split; [done|].
        split; [rewrite Ha; by destruct (default _ _)|].
        split; [done|]. rewrite Hlen.
        destruct (loggerDict p !! name); [by destruct Hcase|].
        destruct Hcase as (-> & _ & ->). done.
  - intros N. pose proof (get_logger_again name (self, p)) as Hagain.
    cbn [get_logger_times].
    destruct (get_logger name (self, p)) as [a w1]. simpl in Hagain.
    cbv beta iota zeta.
    by rewrite (get_logger_times_registered N name w1 a Hagain).
Qed.

(** An instance: the manager is asked for "can" three times in a process
    where another module has configured that logger.  It hands out that
    logger, still at [DEBUG] and not propagating, and makes none. *)
Lemma get_logger_spec_witness :
  ∃ a w',
    get_logger_times 3 "can" silenced_world = ([a; a; a], w')
    ∧ objects w'.2 !! a = Some (mkLogger "can" DEBUG false [])
    ∧ length (objects w'.2) = length (objects silenced_world.2).
Proof.
  assert (library_wf silenced_world.2) as Hwf.
  { unfold silenced_world.
    destruct (getLogger_exact "can" default_world.2) as (a & p1 & -> & _ & Hwf1 & _);
      [|done|done|].
    - apply library_ok_wf. apply (manager_init_ok "logs" INFO true true 10 5 fresh).
      apply library_ok_fresh.
    - cbn [snd]. unfold set_propagate, setLevel.
      apply library_wf_update; [done|]. by apply library_wf_update. }
  destruct (get_logger_spec "can" silenced_world.1 silenced_world.2 Hwf)
    as (_ & Hnew & Htimes).
  { vm_compute; reflexivity. }
  destruct Hnew as (a & p' & Hget & _ & _ & _ & Hcan); [vm_compute; reflexivity|].
  destruct Hcan as (_ & _ & Ha & _ & Hcase); [done|done|].
  destruct (Htimes 2%nat) as [H1 H2].
  rewrite <- surjective_pairing in Hget, H1, H2.
  exists a, (get_logger "can" silenced_world).2. split_and!.
  - rewrite (surjective_pairing (get_logger_times 3 "can" silenced_world)).
    rewrite H1, H2, Hget. reflexivity.
  - rewrite Hget. cbn [snd]. rewrite Ha. vm_compute. reflexivity.
  - rewrite Hget. cbn [snd].
    assert (loggerDict silenced_world.2 !! "can" = Some 6%nat) as Hd
      by (vm_compute; reflexivity).
    rewrite Hd in Hcase. apply Hcase.
Defined.

(** C4 as stated fails: for a name that is not special, [get_logger] can
    return a logger that does not propagate, and it need not make one: the
    logger another module has configured is handed out as it is. *)
Lemma get_logger_adopts_silenced_logger :
  loggers silenced_world.1 !! "can" = None
  ∧ is_special "can" = false
  ∧ propagate <$> objects (get_logger "can" silenced_world).2.2
                    !! (get_logger "can" silenced_world).1
    = Some false
  ∧ length (objects (get_logger "can" silenced_world).2.2)
    = length (objects silenced_world.2).
Proof. split_and!; vm_compute; reflexivity. Qed.

(** **** [toggle_special_logger] and the level of the root logger *)

Lemma getEffectiveLevel_root p r :
  objects p !! root = Some r → getEffectiveLevel root p = level r.
Proof.
  intros Hr. unfold getEffectiveLevel. rewrite Hr, bool_decide_eq_true_2 by done.
  cbn [fmap list_fmap]. rewrite filter_cons. case_decide as Hl; [done|].
  rewrite filter_nil. cbn [head default]. unfold NOTSET in *. lia.
Qed.

(** C5, amended: [toggle_special_logger] on a category whose special
    logger is set sets the level of that logger to [DEBUG] when enabling
    and to [CRITICAL] when disabling, leaves every other logger as it was,
    and calls [info] once on the root logger with the text
    "Enabled <category> logging" or "Disabled <category> logging"; the
    root logger makes one [INFO] record of it when its own level is [INFO]
    or lower, and no record when its level is higher.  On a category that
    is not a key of the special loggers, or whose entry is still [None],
    it changes nothing and logs nothing.  In every world a program can
    bring about the categories with a logger are exactly the five special
    ones, none of them is the root logger, and the root logger is
    registered as "root". *)
Theorem toggle_special_logger_spec category enable self p :
  (∀ a r,
     special_get category (special_loggers self) = Some (Some a) →
     loggers self !! "root" = Some root → a ≠ root →
     objects p !! root = Some r →
     ∃ p',
       toggle_special_logger category enable (self, p) = Some (self, p')
       ∧ objects p' !! a
         = with_level (if enable then DEBUG else CRITICAL) <$> objects p !! a
       ∧ (∀ b, b ≠ a → objects p' !! b = objects p !! b)
       ∧ loggerDict p' = loggerDict p
       ∧ records p'
         = if bool_decide (level r ≤ INFO)
           then records p
                ++ [(root, INFO,
                     (if enable then "Enabled" else "Disabled") +:+ " " +:+ category
                     +:+ " logging")]
           else records p)
  ∧ (special_get category (special_loggers self) = None
     ∨ special_get category (special_loggers self) = Some None →
     toggle_special_logger category enable (self, p) = Some (self, p))
  ∧ (reachable (self, p) →
     loggers self !! "root" = Some root
     ∧ is_Some (objects p !! root)
     ∧ (category ∈ special_names →
          ∃ a lg, special_get category (special_loggers self) = Some (Some a)
                  ∧ a ≠ root ∧ objects p !! a = Some lg)
     ∧ (category ∉ special_names →
          special_get category (special_loggers self) = None)).
Proof.
  split_and!.
  - intros a r Hsp Hroot Har Hr. unfold toggle_special_logger.
    rewrite Hsp, Hroot. eexists. split; [reflexivity|].
    match goal with |- context [log ?l ?v ?m ?q] =>
      destruct (log_frame l v m q) as (-> & -> & ->)
    end.
    split_and!; try done.
    + by rewrite objects_setLevel, decide_True.
    + intros b Hb. by rewrite objects_setLevel, decide_False.
    + unfold isEnabledFor. rewrite (getEffectiveLevel_root _ r).
      * rewrite bool_decide_eq_true_2 by done. cbn [andb].
        by destruct (bool_decide (level r ≤ INFO)).
      * by rewrite objects_setLevel, decide_False.
  - unfold toggle_special_logger. by intros [-> | ->].
  - intros Hw. pose proof (reachable_wf _ Hw) as (((Hlib & Hkeys) & Hroot & _) & _).
    cbn [fst snd] in *. split_and!; try done.
    + by destruct Hlib as ((r & -> & _) & _).
    + intros Hc.
      destruct (reachable_special _ category Hw Hc) as (a & lg & Hget & _ & Hd & Hlg & _).
      exists a, lg. split_and!; try done.
      destruct Hlib as (_ & Hdict & _). by destruct (Hdict category a Hd).
    + intros Hc. by apply special_get_not_special.
Qed.

(** An instance: the sync channel of the default manager switched off and
    on again, the root logger being at [INFO]. *)
Lemma toggle_special_logger_spec_witness :
  ∃ p1 p2,
    toggle_special_logger "sync" false default_world = Some (default_world.1, p1)
    ∧ level <$> objects p1 !! 3%nat = Some CRITICAL
    ∧ toggle_special_logger "sync" true (default_world.1, p1) = Some (default_world.1, p2)
    ∧ level <$> objects p2 !! 3%nat = Some DEBUG
    ∧ records p2 = [(root, INFO, "Disabled sync logging"); (root, INFO, "Enabled sync logging")].
Proof.
  assert (∃ r, objects default_world.2 !! root = Some r ∧ level r = INFO)
    as (r & Hr & Hlevel) by (eexists; split; vm_compute; reflexivity).
  destruct (toggle_special_logger_spec "sync" false default_world.1 default_world.2)
    as (Hoff & _).
  destruct (Hoff 3%nat r) as (p1 & Ht1 & Hl1 & Ho1 & _ & Hr1);
    [vm_compute; reflexivity|vm_compute; reflexivity|done|exact Hr|].
  destruct (toggle_special_logger_spec "sync" true default_world.1 p1) as (Hon & _).
  destruct (Hon 3%nat r) as (p2 & Ht2 & Hl2 & _ & _ & Hr2);
    [vm_compute; reflexivity|vm_compute; reflexivity|done|by rewrite Ho1|].
  rewrite <- surjective_pairing in Ht1.
  exists p1, p2.
  split; [exact Ht1|]. split; [rewrite Hl1; vm_compute; reflexivity|].
  split; [exact Ht2|]. split; [rewrite Hl2, Hl1; vm_compute; reflexivity|].
  rewrite Hr2, Hr1, Hlevel. vm_compute. reflexivity.
Defined.

(** C5 as stated fails: in a manager constructed with the default level
    [WARNING] the toggle sets the level of the sync logger, and no [INFO]
    record is made on the root logger. *)
Lemma toggle_makes_no_record_above_info :
  ∃ w',
    toggle_special_logger "sync" false (__init__ "logs" WARNING true true 10 5 fresh)
    = Some w'
    ∧ level <$> objects w'.2 !! 3%nat = Some CRITICAL
    ∧ records w'.2 = [].
Proof. eexists. split_and!; vm_compute; reflexivity. Qed.

(** X11: in every world a program can bring about, each of the five
    accessors returns a logger (never [None], never a [KeyError]), the one
    [get_logger] returns for the category's name without changing
    anything; that logger bears the category's name and does not
    propagate. *)
Theorem special_accessors_spec w :
  reachable w →
  Forall (λ ca : string * (t → option (option nat)),
            ∃ a lg, ca.2 w.1 = Some (Some a)
                    ∧ get_logger ca.1 w = (a, w)
                    ∧ objects w.2 !! a = Some lg
                    ∧ name lg = ca.1 ∧ propagate lg = false)
         accessors.
Proof.
  intros Hw.
  assert (∀ c, c ∈ special_names →
            ∃ a lg, special_get c (special_loggers w.1) = Some (Some a)
                    ∧ get_logger c w = (a, w)
                    ∧ objects w.2 !! a = Some lg
                    ∧ name lg = c ∧ propagate lg = false) as Hall.
  { intros c Hc.
    destruct (reachable_special w c Hw Hc) as (a & lg & Hget & Hreg & _ & Hlg & Hnm & Hpr).
    exists a, lg. split_and!; try done.
    destruct w as [self p]. unfold get_logger. cbn [fst] in Hreg. by rewrite Hreg. }
  unfold accessors. repeat apply Forall_cons_2; [..|apply Forall_nil_2];
    apply Hall; apply (bool_decide_unpack _); by vm_compute.
Qed.

(** An instance: the manager with the default configuration in a fresh
    process, after the level of everything has been set. *)
Lemma special_accessors_spec_witness :
  Forall (λ ca : string * (t → option (option nat)),
            ∃ a lg, ca.2 (set_level DEBUG None default_world).1 = Some (Some a)
                    ∧ get_logger ca.1 (set_level DEBUG None default_world)
                      = (a, set_level DEBUG None default_world)
                    ∧ objects (set_level DEBUG None default_world).2 !! a = Some lg
                    ∧ name lg = ca.1 ∧ propagate lg = false)
         accessors.
Proof.
  apply special_accessors_spec.
  apply reach_set_level.
  exact (reach_init "logs" INFO true true 10 5 fresh library_ok_fresh).
Defined.

(** X12: a handle is stable.  Once a name is registered with the manager,
    whatever methods are called afterwards, [get_logger] keeps returning
    the same logger for it and changes nothing; and that logger still has
    the name, the propagation flag and the handlers it had: only its level
    can have changed. *)
Theorem registered_handle_is_stable w w' n a :
  reachable w → rtc method_call w w' → loggers w.1 !! n = Some a →
  get_logger n w' = (a, w')
  ∧ ∃ lg lg', objects w.2 !! a = Some lg ∧ objects w'.2 !! a = Some lg'
              ∧ name lg' = name lg ∧ propagate lg' = propagate lg
              ∧ handlers lg' = handlers lg.
Proof.
  intros Hw Hrtc Hreg. pose proof (reachable_wf w Hw) as Hwf.
  destruct (method_calls_frame w w' Hwf Hrtc) as (_ & _ & _ & Hl & _ & Ho & _).
  split.
  - specialize (Hl n a Hreg). destruct w' as [self' p']. unfold get_logger.
    cbn [fst] in Hl. by rewrite Hl.
  - assert (∃ lg, objects w.2 !! a = Some lg) as [lg Hlg].
    { destruct Hwf as (((Hlib & _) & _) & _ & Hdict).
      specialize (Hdict n a Hreg). case_bool_decide.
      - subst a. destruct Hlib as ((r & Hr & _) & _). by exists r.
      - destruct Hlib as (_ & Hd & _). destruct (Hd n a Hdict) as (_ & lg & Hlg & _).
        by exists lg. }
    destruct (Ho a lg Hlg) as (lg' & Hlg' & ? & ? & ?).
    by exists lg, lg'.
Qed.

(** An instance: the sync logger of the default manager, across a toggle
    and a change of all levels. *)
Lemma registered_handle_is_stable_witness :
  ∃ w1 w2,
    toggle_special_logger "sync" false default_world = Some w1
    ∧ w2 = set_level DEBUG None w1
    ∧ get_logger "sync" w2 = (3%nat, w2)
    ∧ ∃ lg lg', objects default_world.2 !! 3%nat = Some lg
                ∧ objects w2.2 !! 3%nat = Some lg'
                ∧ name lg' = name lg ∧ propagate lg' = propagate lg
                ∧ handlers lg' = handlers lg.
Proof.
  eexists _, _. split; [vm_compute; reflexivity|]. split; [reflexivity|].
  apply (registered_handle_is_stable default_world _ "sync" 3%nat).
  - exact (reach_init "logs" INFO true true 10 5 fresh library_ok_fresh).
  - eapply rtc_l; [|apply rtc_once; apply call_set_level].
    eapply (call_toggle "sync" false). vm_compute; reflexivity.
  - vm_compute; reflexivity.
Defined.

(** X13: the manager never files one logger under two names, with one
    exception: the empty name and "root" both stand for the root
    logger. *)
Theorem registered_names_share_no_logger w n1 n2 a :
  reachable w → loggers w.1 !! n1 = Some a → loggers w.1 !! n2 = Some a →
  n1 = n2
  ∨ (a = root ∧ n1 ∈ [EmptyString; "root"] ∧ n2 ∈ [EmptyString; "root"]).
Proof.
  intros Hw H1 H2. destruct (reachable_wf w Hw) as (((Hlib & _) & _) & _ & Hdict).
  destruct Hlib as (_ & Hd & Hinj).
  pose proof (Hdict n1 a H1) as Hn1. pose proof (Hdict n2 a H2) as Hn2.
  assert (∀ n, n = EmptyString ∨ n = "root" → n ∈ [EmptyString; "root"]) as Hin.
  { intros n [->| ->]; [left|right; left]. }
  revert Hn1 Hn2. do 2 case_bool_decide; intros Hn1 Hn2.
  - right. split_and!; auto.
  - subst a. by destruct (Hd n2 root Hn2) as [[] _].
  - subst a. by destruct (Hd n1 root Hn1) as [[] _].
  - left. by eapply Hinj.
Qed.

(** An instance: after [get_logger("")] the root logger is filed under
    both of its names. *)
Lemma registered_names_share_no_logger_witness :
  loggers (get_logger EmptyString default_world).2.1 !! EmptyString = Some root
  ∧ loggers (get_logger EmptyString default_world).2.1 !! "root" = Some root
  ∧ (EmptyString = "root"
     ∨ (root = root ∧ EmptyString ∈ [EmptyString; "root"]
        ∧ "root" ∈ [EmptyString; "root"])).
Proof.
  assert (loggers (get_logger EmptyString default_world).2.1 !! EmptyString = Some root)
    as H1 by (vm_compute; reflexivity).
  assert (loggers (get_logger EmptyString default_world).2.1 !! "root" = Some root)
    as H2 by (vm_compute; reflexivity).
  split; [exact H1|]. split; [exact H2|].
  refine (registered_names_share_no_logger _ EmptyString "root" root _ H1 H2).
  apply reach_get_logger.
  exact (reach_init "logs" INFO true true 10 5 fresh library_ok_fresh).
Defined.

(** X14: [get_logger] with the empty name returns the root logger, as it
    does for "root", and touches nothing in the logging library: no logger
    is made and none is changed. *)
Theorem get_logger_empty_name_is_root w :
  reachable w →
  (get_logger EmptyString w).1 = root
  ∧ (get_logger EmptyString w).2.2 = w.2
  ∧ get_logger "root" w = (root, w).
Proof.
  intros Hw. destruct (reachable_wf w Hw) as (((_ & Hkeys) & Hroot & _) & _ & Hdict).
  destruct w as [self p]. cbn [fst snd] in *. split_and!.
  - unfold get_logger. destruct (loggers self !! EmptyString) as [a|] eqn:Hreg.
    + by apply (Hdict EmptyString a).
    + reflexivity.
  - unfold get_logger. destruct (loggers self !! EmptyString) as [a|] eqn:Hreg.
    + reflexivity.
    + cbn [getLogger bool_decide orb fst snd].
      rewrite (special_in_keys _ _ Hkeys).
      destruct is_special_root as [_ ->]. reflexivity.
  - unfold get_logger. by rewrite Hroot.
Qed.

(** An instance: the default manager. *)
Lemma get_logger_empty_name_is_root_witness :
  (get_logger EmptyString default_world).1 = root
  ∧ (get_logger EmptyString default_world).2.2 = default_world.2
  ∧ get_logger "root" default_world = (root, default_world).
Proof.
  apply get_logger_empty_name_is_root.
  exact (reach_init "logs" INFO true true 10 5 fresh library_ok_fresh).
Defined.

(** X15: for a name that is not registered with the manager and is
    neither special nor a name of the root logger, [get_logger] adopts the
    logger the library has under that name exactly as it is, with the
    level, the propagation flag and the handlers somebody else gave it,
    and otherwise makes a new one whose own level is [NOTSET] (not the
    manager's default level), which propagates and has no handlers;
    either way the logger is not the root logger and no other logger is
    touched. *)
Theorem get_logger_adopts_or_creates name self p :
  library_wf p → (special_loggers self).*1 = special_names →
  loggers self !! name = None →
  name ≠ EmptyString → name ≠ "root" → name ∉ special_names →
  ∃ lg,
    objects (get_logger name (self, p)).2.2 !! (get_logger name (self, p)).1 = Some lg
    ∧ lg = default (mkLogger name NOTSET true []) (named p name)
    ∧ (get_logger name (self, p)).1 ≠ root
    ∧ (named p name = None → (get_logger name (self, p)).1 = length (objects p))
    ∧ (∀ b, b ≠ (get_logger name (self, p)).1 →
         objects (get_logger name (self, p)).2.2 !! b = objects p !! b).
Proof.
  intros Hwf Hkeys Hreg Hn1 Hn2 Hns.
  unfold get_logger. rewrite Hreg, (special_in_keys _ _ Hkeys).
  rewrite (bool_decide_eq_false_2 _ Hns : is_special name = false).
  destruct (getLogger_exact name p Hwf Hn1 Hn2)
    as (a & p1 & -> & Har & _ & _ & Ha & _ & Hother & _ & Hcase).
  cbn [fst snd]. eexists. split; [exact Ha|]. split; [reflexivity|].
  split_and!; try done.
  intros Hnone. destruct (loggerDict p !! name) as [a0|] eqn:Hdict.
  - destruct Hcase as [-> ->]. destruct Hwf as [_ Hd].
    destruct (Hd name a0 Hdict) as (_ & lg & Hlg & _).
    unfold named in Hnone. rewrite Hdict in Hnone. cbn in Hnone. congruence.
  - by destruct Hcase as (-> & _).
Qed.

(** An instance: a logger another module has set to [DEBUG] and switched
    off the propagation of is handed out as it is. *)
Lemma get_logger_adopts_or_creates_witness :
  objects (get_logger "can" silenced_world).2.2 !! (get_logger "can" silenced_world).1
  = Some (mkLogger "can" DEBUG false [])
  ∧ (get_logger "can" silenced_world).1 ≠ root.
Proof.
  assert (library_wf silenced_world.2) as Hwf.
  { unfold silenced_world.
    destruct (getLogger_exact "can" default_world.2) as (a & p1 & -> & _ & Hwf1 & _);
      [|done|done|].
    - apply library_ok_wf. apply (manager_init_ok "logs" INFO true true 10 5 fresh).
      apply library_ok_fresh.
    - cbn [snd]. unfold set_propagate, setLevel.
      apply library_wf_update; [done|]. by apply library_wf_update. }
  destruct (get_logger_adopts_or_creates "can" silenced_world.1 silenced_world.2 Hwf)
    as (lg & Hlg & Heq & Hroot & _).
  - vm_compute; reflexivity.
  - vm_compute; reflexivity.
  - discriminate.
  - discriminate.
  - apply (bool_decide_eq_false_1 _). vm_compute; reflexivity.
  - rewrite <- surjective_pairing in Hlg, Hroot. split; [|exact Hroot].
    rewrite Hlg, Heq. vm_compute. reflexivity.
Defined.

(** X16: of two calls of [set_level] with the same selection of loggers
    the later one wins: the result is that of the later call alone. *)
Theorem set_level_last_wins l1 l2 names w :
  set_level l2 names (set_level l1 names w) = set_level l2 names w.
Proof.
  destruct w as [self p].
  assert (∀ addrs,
            foldl (λ p a, setLevel l2 a p) (foldl (λ p a, setLevel l1 a p) p addrs) addrs
            = foldl (λ p a, setLevel l2 a p) p addrs) as Hfold.
  { intros addrs.
    destruct (setLevel_all l1 addrs p) as (Hd1 & Hr1 & Ho1).
    destruct (setLevel_all l2 addrs (foldl (λ p a, setLevel l1 a p) p addrs))
      as (Hd12 & Hr12 & Ho12).
    destruct (setLevel_all l2 addrs p) as (Hd2 & Hr2 & Ho2).
    apply state_eq; [|congruence|congruence].
    apply list_eq. intros b. rewrite Ho12, Ho1, Ho2.
    destruct (decide (b ∈ addrs)); [|done].
    by destruct (objects p !! b). }
  destruct names as [names|]; cbn [set_level].
  - by rewrite !set_level_names_omap, Hfold.
  - by rewrite Hfold.
Qed.

(** X17: [set_level] without a list of names also reaches the root logger
    and the five special loggers, since the constructor registers them:
    whatever [toggle_special_logger] had set, each of them has the new
    level afterwards. *)
Theorem set_level_all_covers_special_loggers lvl w :
  reachable w →
  level <$> objects (set_level lvl None w).2 !! root = Some lvl
  ∧ ∀ c, c ∈ special_names →
      ∃ a, special_get c (special_loggers (set_level lvl None w).1) = Some (Some a)
           ∧ level <$> objects (set_level lvl None w).2 !! a = Some lvl.
Proof.
  intros Hw. pose proof (reachable_wf w Hw) as (((Hlib & _) & Hroot & _) & _).
  assert (∀ n a lg, loggers w.1 !! n = Some a → objects w.2 !! a = Some lg →
            level <$> objects (set_level lvl None w).2 !! a = Some lvl) as Hset.
  { intros n a lg Hreg Hlg. destruct w as [self p]. cbn [fst snd set_level] in *.
    destruct (setLevel_all lvl (snd <$> map_to_list (loggers self)) p) as (_ & _ & ->).
    rewrite decide_True, Hlg; [done|].
    apply list_elem_of_fmap. exists (n, a). split; [done|].
    by apply elem_of_map_to_list. }
  split.
  - destruct Hlib as ((r & Hr & _) & _). by eapply Hset.
  - intros c Hc.
    destruct (reachable_special w c Hw Hc) as (a & lg & Hget & Hreg & _ & Hlg & _).
    exists a. split; [|by eapply Hset].
    destruct w as [self p]. by destruct (set_level_frame lvl None self p) as (p' & -> & _).
Qed.

(** An instance: the sync logger after it was disabled. *)
Lemma set_level_all_covers_special_loggers_witness :
  ∃ w1, toggle_special_logger "sync" false default_world = Some w1
        ∧ level <$> objects w1.2 !! 3%nat = Some CRITICAL
        ∧ level <$> objects (set_level INFO None w1).2 !! 3%nat = Some INFO.
Proof.
  destruct (toggle_special_logger "sync" false default_world) as [w1|] eqn:Htoggle;
    [|vm_compute in Htoggle; discriminate].
  exists w1. split; [reflexivity|].
  assert (reachable w1) as Hw1.
  { eapply reach_toggle; [|exact Htoggle].
    exact (reach_init "logs" INFO true true 10 5 fresh library_ok_fresh). }
  destruct (set_level_all_covers_special_loggers INFO w1 Hw1) as [_ Hspec].
  destruct (Hspec "sync") as (a & Hget & Hlvl).
  { apply (bool_decide_unpack _). by vm_compute. }
  vm_compute in Htoggle. injection Htoggle as <-.
  split; [vm_compute; reflexivity|].
  vm_compute in Hget. injection Hget as <-. exact Hlvl.
Defined.

(** X18: the methods never change what the constructor has set up: after
    any calls the manager has the configuration and the dict of special
    loggers it had, and no time stamp of the rate limiter is ever
    dropped, so a key that has been limited once stays limited. *)
Theorem methods_keep_configuration w w' :
  reachable w → rtc method_call w w' →
  config w'.1 = config w.1
  ∧ special_loggers w'.1 = special_loggers w.1
  ∧ ∀ k, is_Some (rate_limiters w.1 !! k) → is_Some (rate_limiters w'.1 !! k).
Proof.
  intros Hw Hrtc.
  destruct (method_calls_frame w w' (reachable_wf w Hw) Hrtc)
    as (_ & Hc & Hs & _ & _ & _ & _ & Hk).
  by split_and!.
Qed.

(** An instance: a limited call, then other calls. *)
Lemma methods_keep_configuration_witness :
  ∃ w1 w2,
    rate_limited_log root INFO "tick" 2 100 default_world = Some (Emitted, w1)
    ∧ w2 = (get_logger "can" (set_level DEBUG None w1)).2
    ∧ config w2.1 = config w1.1
    ∧ is_Some (rate_limiters w2.1 !! limiter_key "root" INFO).
Proof.
  destruct (rate_limited_log root INFO "tick" 2 100 default_world) as [[o w1]|] eqn:Hlog;
    [|vm_compute in Hlog; discriminate].
  assert (o = Emitted) as -> by (vm_compute in Hlog; by injection Hlog as <- _).
  exists w1, (get_logger "can" (set_level DEBUG None w1)).2.
  split; [reflexivity|]. split; [reflexivity|].
  destruct (methods_keep_configuration w1 (get_logger "can" (set_level DEBUG None w1)).2)
    as (Hc & _ & Hk).
  - eapply reach_rate_limited; [|exact Hlog].
    exact (reach_init "logs" INFO true true 10 5 fresh library_ok_fresh).
  - eapply rtc_l; [apply call_set_level|]. apply rtc_once, call_get_logger.
  - split; [exact Hc|]. apply Hk.
    vm_compute in Hlog. injection Hlog as <-. vm_compute. eauto.
Defined.

End ManagerMore.

(** *** The module-level functions *)

Section ModuleFunctions.
Implicit Types (pr : process) (self : LoggingManager.t) (p : logging.state).

(** What [get_logging_manager] returns, and the process it leaves. *)
Lemma get_logging_manager_ok pr :
  process_ok pr →
  ∃ self p,
    get_logging_manager pr = (self, mkProcess (Some self) p)
    ∧ reachable (self, p)
    ∧ (_logging_manager pr = None →
         (self, p) = LoggingManager.__init__ "logs" logging.INFO true true 10 5 (lib pr))
    ∧ (∀ self0, _logging_manager pr = Some self0 →
         self = self0 ∧ mkProcess (Some self) p = pr).
Proof.
  unfold process_ok, get_logging_manager, initialize_logging.
  destruct pr as [[self0|] p0]; cbn [_logging_manager lib]; intros Hok.
  - exists self0, p0. split_and!; try done. by intros ? [= ->].
  - destruct (LoggingManager.__init__ "logs" logging.INFO true true 10 5 p0)
      as [self p] eqn:Hinit.
    exists self, p. split_and!; try done.
    rewrite <- Hinit. by apply reach_init.
Qed.

Lemma process_ok_get_logger name pr : process_ok pr → process_ok (get_logger name pr).2.
Proof.
  intros Hok. destruct (get_logging_manager_ok pr Hok) as (self & p & Hget & Hreach & _).
  unfold get_logger. unfold get_logging_manager in Hget. rewrite Hget.
  cbn [lib].
  pose proof (reach_get_logger name _ Hreach) as Hreach'.
  destruct (LoggingManager.get_logger name (self, p)) as [a [self' p']].
  exact Hreach'.
Qed.

(** X19: the first use decides the configuration.  When the module-level
    [get_logger] is called before [initialize_logging], it constructs the
    manager with the defaults (directory "logs", level [INFO], console and
    file output), and a call of [initialize_logging] after it, whatever
    its arguments, returns that manager and changes nothing. *)
Theorem get_logger_before_initialize name pr :
  library_ok (lib pr) → _logging_manager pr = None →
  ∃ self,
    _logging_manager (get_logger name pr).2 = Some self
    ∧ (∃ f1 f2, config self = ("logs", logging.INFO, true, true, 10, 5, f1, f2))
    ∧ ∀ log_dir lvl console file,
        initialize_logging log_dir lvl console file (get_logger name pr).2
        = (self, (get_logger name pr).2).
Proof.
  intros Hlib Hnone. destruct pr as [g p1]. cbn [_logging_manager lib] in *. subst g.
  destruct (manager_init_ok "logs" logging.INFO true true 10 5 p1 Hlib)
    as (_ & _ & _ & (f1 & f2 & Hcfg) & _).
  unfold get_logger, initialize_logging. cbn [_logging_manager lib].
  destruct (LoggingManager.__init__ "logs" logging.INFO true true 10 5 p1)
    as [self0 p0].
  cbn [lib fst] in *.
  assert (config (LoggingManager.get_logger name (self0, p0)).2.1 = config self0) as Hsame.
  { unfold LoggingManager.get_logger.
    destruct (LoggingManager.loggers self0 !! name); [done|].
    by destruct (logging.getLogger name p0). }
  destruct (LoggingManager.get_logger name (self0, p0)) as [a [self p]].
  exists self. split; [done|]. split.
  - exists f1, f2. cbn [fst snd] in Hsame. by rewrite Hsame.
  - intros. reflexivity.
Qed.

(** An instance: a module that asks for its logger at import time, in a
    new process. *)
Lemma get_logger_before_initialize_witness :
  ∃ self,
    _logging_manager (get_logger "can" new_process).2 = Some self
    ∧ LoggingManager.log_dir self = "logs"
    ∧ initialize_logging "/var/log/halo" logging.DEBUG false true
        (get_logger "can" new_process).2
      = (self, (get_logger "can" new_process).2).
Proof.
  destruct (get_logger_before_initialize "can" new_process library_ok_fresh eq_refl)
    as (self & Hglobal & (f1 & f2 & Hcfg) & Hinit).
  exists self. split; [exact Hglobal|]. split; [|apply Hinit].
  by injection Hcfg.
Defined.

(** X20: each module-level accessor of a special logger returns a logger
    (never [None]), the same one the module-level [get_logger] returns
    for the category's name, and both leave the process as
    [get_logging_manager] leaves it: the manager is constructed with the
    defaults if there was none, and nothing else changes.  The logger
    bears the category's name and does not propagate. *)
Theorem module_accessors_spec pr :
  process_ok pr →
  Forall (λ ca : string * (process → option (option nat) * process),
            ∃ a lg, ca.2 pr = (Some (Some a), (get_logging_manager pr).2)
                    ∧ get_logger ca.1 pr = (a, (get_logging_manager pr).2)
                    ∧ logging.objects (lib (get_logging_manager pr).2) !! a = Some lg
                    ∧ logging.name lg = ca.1 ∧ logging.propagate lg = false)
         module_accessors.
Proof.
  intros Hok. destruct (get_logging_manager_ok pr Hok) as (self & p & Hget & Hreach & _).
  assert (∀ c, c ∈ special_names →
            ∃ a lg, (LoggingManager.special_get c (LoggingManager.special_loggers self),
                     (get_logging_manager pr).2)
                    = (Some (Some a), (get_logging_manager pr).2)
                    ∧ get_logger c pr = (a, (get_logging_manager pr).2)
                    ∧ logging.objects (lib (get_logging_manager pr).2) !! a = Some lg
                    ∧ logging.name lg = c ∧ logging.propagate lg = false) as Hall.
  { intros c Hc.
    destruct (reachable_special (self, p) c Hreach Hc)
      as (a & lg & Hsp & Hreg & _ & Hlg & Hnm & Hpr).
    exists a, lg. cbn [fst snd] in *. rewrite Hget. cbn [fst snd lib].
    split_and!; try done; [by rewrite Hsp|].
    unfold get_logger. unfold get_logging_manager in Hget. rewrite Hget. cbn [lib].
    by rewrite (get_logger_registered c self p a Hreg). }
  unfold module_accessors.
  repeat apply Forall_cons_2; [..|apply Forall_nil_2]; cbn [fst snd];
    unfold get_diagnostic_logger, get_sensor_logger, get_sync_logger,
      get_control_logger, get_performance_logger,
      LoggingManager.get_diagnostic_logger, LoggingManager.get_sensor_logger,
      LoggingManager.get_sync_logger, LoggingManager.get_control_logger,
      LoggingManager.get_performance_logger;
    rewrite Hget; rewrite Hget in Hall; apply Hall;
    apply (bool_decide_unpack _); by vm_compute.
Qed.

(** An instance: a process in which some module has asked for a
    logger. *)
Lemma module_accessors_spec_witness :
  Forall (λ ca : string * (process → option (option nat) * process),
            ∃ a lg, ca.2 (get_logger "can" new_process).2
                    = (Some (Some a),
                       (get_logging_manager (get_logger "can" new_process).2).2)
                    ∧ get_logger ca.1 (get_logger "can" new_process).2
                      = (a, (get_logging_manager (get_logger "can" new_process).2).2)
                    ∧ logging.objects
                        (lib (get_logging_manager (get_logger "can" new_process).2).2) !! a
                      = Some lg
                    ∧ logging.name lg = ca.1 ∧ logging.propagate lg = false)
         module_accessors.
Proof.
  apply module_accessors_spec, process_ok_get_logger.
  exact library_ok_fresh.
Defined.

(** X21: the module-level [get_logger] is idempotent: a second call with
    the same name returns the same logger and leaves the process, the
    global manager included, as the first call left it, also when the
    first call had to construct the manager. *)
Theorem module_get_logger_twice name pr :
  get_logger name (get_logger name pr).2
  = ((get_logger name pr).1, (get_logger name pr).2).
Proof.
  assert (∃ a self p, get_logger name pr = (a, mkProcess (Some self) p)
                      ∧ LoggingManager.loggers self !! name = Some a)
    as (a & self & p & -> & Hreg).
  { unfold get_logger.
    destruct (match _logging_manager pr with
              | Some self => (self, pr)
              | None => initialize_logging "logs" logging.INFO true true pr
              end) as [self0 pr0].
    pose proof (get_logger_again name (self0, lib pr0)) as Hagain.
    destruct (LoggingManager.get_logger name (self0, lib pr0)) as [a [self p]].
    by exists a, self, p. }
  cbn [fst snd]. unfold get_logger. cbn [_logging_manager lib].
  by rewrite (get_logger_registered name self p a Hreg).
Qed.

End ModuleFunctions.
